(** * Facial-analysis endpoint: the brightness scorer and its request handler

    Shallow embedding of [backend/facial_analysis_api.py].

    Python [float]s are IEEE 754 binary64 numbers.  They are modelled with
    the Standard Library's executable specification of binary floating
    point ([SpecFloat], precision 53, [emax] 1024), so every operation of
    the source ([/], [-], [min], [max], [round]) is the correctly rounded
    one and can be evaluated on concrete inputs.  Python [int]s are [Z]. *)

From Stdlib Require Import ZArith Lia Bool List String Ascii Permutation.
From Stdlib Require Import Strings.Byte.
From Stdlib Require Import Floats.SpecFloat.
Import ListNotations.

Local Open Scope Z_scope.

(* ================================================================= *)
(** ** Exceptions and results *)

(** The Python exceptions the two functions can raise. *)
Inductive exn : Type :=
| KeyError
| TypeError
| AttributeError
| IndexError
| ZeroDivisionError
| OverflowError
| DecodeError              (* binascii.Error, from base64.b64decode *)
| UnidentifiedImageError   (* from PIL.Image.open *)
| OSError.                 (* from loading the pixels of a truncated file *)

Inductive result (A : Type) : Type :=
| Ok (a : A)
| Raise (e : exn).

Arguments Ok {A} a.
Arguments Raise {A} e.

Definition bind {A B : Type} (r : result A) (k : A -> result B) : result B :=
  match r with
  | Ok a => k a
  | Raise e => Raise e
  end.

Notation "x <- r ;; k" := (bind r (fun x => k))
  (at level 61, r at next level, right associativity).

(** The error taxonomy of the specification (section 7).  The source
    defines no exception classes of its own; the two names classify the
    faults that escape the handler. *)
Inductive fault : Type := MalformedRequest | InvalidImage.

Definition classify (e : exn) : fault :=
  match e with
  | KeyError | TypeError | AttributeError | IndexError | DecodeError =>
      MalformedRequest
  | ZeroDivisionError | OverflowError | UnidentifiedImageError | OSError =>
      InvalidImage
  end.

(* ================================================================= *)
(** ** Binary64 arithmetic and the float builtins *)

Module Float64.

Definition prec : Z := 53.
Definition emax : Z := 1024.

Definition float : Type := spec_float.

Definition fdiv : float -> float -> float := SFdiv prec emax.
Definition fsub : float -> float -> float := SFsub prec emax.
Definition fadd : float -> float -> float := SFadd prec emax.
Definition flt : float -> float -> bool := SFltb.
Definition fle : float -> float -> bool := SFleb.
Definition valid (x : float) : Prop := valid_binary prec emax x = true.

(** An integer as numerator or denominator of a correctly rounded
    quotient: the integer itself as mantissa, exponent 0. *)
Definition raw (z : Z) : float :=
  match z with
  | Z0 => S754_zero false
  | Zpos p => S754_finite false p 0
  | Zneg p => S754_finite true p 0
  end.

(** Conversion of an [int] operand of a mixed [float]/[int] operation. *)
Definition float_of_int (z : Z) : float := binary_normalize prec emax z 0 false.

(** The double nearest to the decimal [q * 10^(-nd)]: what the parser
    does with a float literal, and the last step of [round]. *)
Definition strtod (s : bool) (q : Z) (nd : Z) : float :=
  match q with
  | Zpos p => fdiv (S754_finite s p 0) (raw (10 ^ nd))
  | _ => S754_zero s
  end.

Definition lit_0_0 : float := strtod false 0 1.   (* 0.0 *)
Definition lit_0_1 : float := strtod false 1 1.   (* 0.1 *)
Definition lit_0_5 : float := strtod false 5 1.   (* 0.5 *)
Definition lit_1_0 : float := strtod false 10 1.  (* 1.0 *)

(** [int / int]: true division, correctly rounded. *)
Definition int_truediv (a b : Z) : result float :=
  if b =? 0 then Raise ZeroDivisionError
  else match fdiv (raw a) (raw b) with
       | S754_infinity _ => Raise OverflowError
       | q => Ok q
       end.

(** [float / float] (an [int] operand is converted first). *)
Definition float_truediv (x y : float) : result float :=
  match y with
  | S754_zero _ => Raise ZeroDivisionError
  | _ => Ok (fdiv x y)
  end.

(** [min(a, b)] and [max(a, b)] with two positional arguments: the first
    argument is kept unless the second is strictly smaller (larger). *)
Definition py_min (a b : float) : float := if flt b a then b else a.
Definition py_max (a b : float) : float := if flt a b then b else a.

(** The integer nearest to [a / c], ties to the even one ([0 < c]). *)
Definition round_half_even (a c : Z) : Z :=
  let q := a / c in
  match 2 * (a mod c) ?= c with
  | Lt => q
  | Eq => if Z.even q then q else q + 1
  | Gt => q + 1
  end.

(** [round(x, nd)] for [0 <= nd]: the exact value of [x] is rounded to
    [nd] decimal places, half to even, and the decimal is read back as a
    double; zeros, infinities and NaN round to themselves. *)
Definition py_round (x : float) (nd : Z) : float :=
  match x with
  | S754_finite s m e =>
      let num := Zpos m * 10 ^ nd * 2 ^ Z.max e 0 in
      let den := 2 ^ Z.max (- e) 0 in
      strtod s (round_half_even num den) nd
  | _ => x
  end.


(** Exact value of a finite float, in units of [2^-1074] (the smallest
    positive double), as an integer. *)
Definition ival (x : float) : Z :=
  match x with
  | S754_finite s m e => (if s then -1 else 1) * (Zpos m * 2 ^ (e + 1074))
  | _ => 0
  end.

(** Finite and not negative: [+0.0] or a positive finite number. *)
Definition nonneg_finite (x : float) : Prop :=
  match x with
  | S754_zero false => True
  | S754_finite false _ _ => True
  | _ => False
  end.

(** [0.0 <= x <= 1.0], as the comparisons of the language decide it. *)
Definition in_unit (x : float) : bool := fle lit_0_0 x && fle x lit_1_0.

(** *** Rounding, as the proofs describe it

    [SpecFloat] rounds by shifting the mantissa right and keeping a round
    and a sticky bit.  The definitions below say what that computes: the
    nearest integer, ties to even, at the exponent the magnitude of the
    number calls for. *)

(** Where [a / c] lies between two consecutive integers. *)
Definition loc_of (a c : Z) : location :=
  if a mod c =? 0 then loc_Exact else loc_Inexact (2 * (a mod c) ?= c).

(** A shift record that stands for the rational [a / c]. *)
Definition represents (a c : Z) (mrs : shr_record) : Prop :=
  shr_m mrs = a / c /\ loc_of_shr_record mrs = loc_of a c.

(** A mantissa and an exponent as a float: zero, finite or overflow. *)
Definition pack (sx : bool) (m e : Z) : float :=
  match m with
  | Z0 => S754_zero sx
  | Zpos p => if e <=? emax - prec then S754_finite sx p e else S754_infinity sx
  | Zneg _ => S754_nan
  end.

(** The float nearest to [a / c * 2^e], when [e] is the exponent its
    magnitude calls for. *)
Definition round_at (sx : bool) (a c e : Z) : float :=
  let m := round_half_even a c in
  if m <? 2 ^ 53 then pack sx m e else pack sx (2 ^ 52) (e + 1).

(** [e] is the exponent binary64 gives a number of the size of
    [a / c * 2^e]: the mantissa [a / c] has 53 bits, or fewer at the
    smallest exponent. *)
Definition positioned (a c e : Z) : Prop :=
  -1074 <= e /\ a < 2 ^ 53 * c /\ (-1074 < e -> 2 ^ 52 * c <= a).

(** The double nearest to the rational [n / d], in units of [2^-1074]
    ([0 <= n], [0 < d]), with sign [sx]. *)
Definition round_rat (sx : bool) (n d : Z) : float :=
  let E := Z.max (Zdigits2 (n / d) - 53) 0 in
  round_at sx n (d * 2 ^ E) (E - 1074).

(** The double nearest to the integer [v], in units of [2^-1074]. *)
Definition round_int (v : Z) : float :=
  match v with
  | Z0 => S754_zero false
  | Zpos _ => round_rat false v 1
  | Zneg p => round_rat true (Zpos p) 1
  end.

(** A valid float between [+0.0] and [1.0]. *)
Definition unit_float (x : float) : Prop :=
  valid x /\ nonneg_finite x /\ ival x <= 2 ^ 1074.

(** *** Nearest numbers, in the specification's words

    What "rounded to 2 decimal places" and "the value 0.1" mean for a
    double, said by the distance between exact values and not by the way
    [round] or the parser of literals computes.  The functions of the
    source are compared with these below. *)


Definition is_finite (x : float) : Prop :=
  match x with
  | S754_zero _ | S754_finite _ _ _ => True
  | _ => False
  end.

(** [r] is a double nearest to the rational [n / d] ([0 < d]): no valid
    finite double lies closer to [n / d]. *)
Definition nearest_double (n d : Z) (r : float) : Prop :=
  valid r /\ is_finite r /\
  forall f, valid f -> is_finite f ->
    Z.abs (d * ival r - n * 2 ^ 1074) <= Z.abs (d * ival f - n * 2 ^ 1074).


(** The doubles 0.1 and 0.5 by their bits, [0x3FB999999999999A] and
    [0x3FE0000000000000]: a 53-bit mantissa and a power of two. *)
Definition double_0_1 : float := S754_finite false 7205759403792794 (-56).
Definition double_0_5 : float := S754_finite false 4503599627370496 (-53).

End Float64.

Import Float64.

(* ================================================================= *)
(** ** Images *)

Definition rgb : Type := (byte * byte * byte)%type.

Definition chan (b : byte) : Z := Z.of_N (Byte.to_N b).

(** Pixel data of the two modes the handler meets: colour and greyscale. *)
Inductive raster : Type :=
| RasterRGB (px : list rgb)
| RasterL (px : list byte).

Definition raster_length (r : raster) : nat :=
  match r with
  | RasterRGB px => List.length px
  | RasterL px => List.length px
  end.

(** A decoded image: its size and [width * height] pixels, row by row. *)
Record Image : Type := {
  width : nat;
  height : nat;
  pixels : raster;
  size_ok : raster_length pixels = (width * height)%nat
}.

(** Modelled from the spec: the RGB-to-greyscale reduction; the source
    leaves it to the imaging library's [convert('L')], which is not part of
    the repository.  This is the library's ITU-R 601-2 luma in 16-bit fixed
    point. *)
Definition L24 (p : rgb) : Z :=
  let '(r, g, b) := p in
  chan r * 19595 + chan g * 38470 + chan b * 7471 + 32768.

Definition byte_of_Z (z : Z) : byte :=
  match Byte.of_N (Z.to_N z) with
  | Some b => b
  | None => xff
  end.

Definition rgb2l (p : rgb) : byte := byte_of_Z (Z.shiftr (L24 p) 16).

Definition raster_L (r : raster) : list byte :=
  match r with
  | RasterRGB px => map rgb2l px
  | RasterL px => px
  end.

Definition raster_L_length (r : raster) :
  List.length (raster_L r) = raster_length r :=
  match r with
  | RasterRGB px => length_map rgb2l px
  | RasterL px => eq_refl
  end.

(** [image.convert('L')]: a new greyscale image of the same size. *)
Definition convert_L (image : Image) : Image :=
  {| width := width image;
     height := height image;
     pixels := RasterL (raster_L (pixels image));
     size_ok := eq_trans (raster_L_length (pixels image)) (size_ok image) |}.

(** [gray.getdata()]: the luminance values, as integers. *)
Definition getdata (gray : Image) : list Z := map chan (raster_L (pixels gray)).

(** The builtin [sum] over integers. *)
Definition sum (l : list Z) : Z := fold_left Z.add l 0.

(* ================================================================= *)
(** ** The scorer *)

(** A dict with string keys, in insertion order. *)
Definition EmotionScores : Type := list (string * float).

Definition labels : list string :=
  ["happy"; "sad"; "angry"; "surprised"; "neutral"; "confused"]%string.

Definition area (image : Image) : Z :=
  Z.of_nat (width image) * Z.of_nat (height image).

(** Lines 12 to 21: the scores of the greyscale image. *)
Definition score_gray (gray : Image) : result EmotionScores :=
  avg_brightness <- int_truediv (sum (getdata gray)) (area gray) ;;
  h <- float_truediv avg_brightness (float_of_int 255) ;;
  s <- float_truediv avg_brightness (float_of_int 255) ;;
  Ok [("happy", py_min lit_1_0 h);
      ("sad", py_max lit_0_0 (fsub (float_of_int 1) s));
      ("angry", lit_0_1);
      ("surprised", lit_0_1);
      ("neutral", lit_0_5);
      ("confused", lit_0_1)]%string.

(** Lines 10 to 21, on an image whose pixels are decoded. *)
Definition basic_emotion_analysis (image : Image) : result EmotionScores :=
  let gray := convert_L image in
  score_gray gray.

(** The luminance values the scorer adds up. *)
Definition luminances (image : Image) : list Z := getdata (convert_L image).

(** [d.get(k)] *)
Fixpoint dict_get (k : string) (d : EmotionScores) : option float :=
  match d with
  | [] => None
  | (k', v) :: rest => if String.eqb k k' then Some v else dict_get k rest
  end.


(* ================================================================= *)
(** ** The request handler *)

(** A parsed JSON body. *)
#[warnings="-register-all"] Inductive json : Type :=
| JNull
| JBool (b : bool)
| JNum (z : Z)
| JStr (s : string)
| JArr (l : list json)
| JObj (items : list (string * json)).

Fixpoint lookup (k : string) (items : list (string * json)) : option json :=
  match items with
  | [] => None
  | (k', v) :: rest => if String.eqb k k' then Some v else lookup k rest
  end.

(** [data[k]] *)
Definition getitem (data : json) (k : string) : result json :=
  match data with
  | JObj items =>
      match lookup k items with
      | Some v => Ok v
      | None => Raise KeyError
      end
  | _ => Raise TypeError
  end.

(** [s.split(sep)] for a one-character separator. *)
Fixpoint split (sep : ascii) (s : string) : list string :=
  match s with
  | EmptyString => [EmptyString]
  | String c s' =>
      if Ascii.eqb c sep then EmptyString :: split sep s'
      else match split sep s' with
           | hd :: tl => String c hd :: tl
           | [] => [String c EmptyString]
           end
  end.

(** [v.split(',')]: only a [str] has the method. *)
Definition str_split (v : json) : result (list string) :=
  match v with
  | JStr s => Ok (split "," s)
  | _ => Raise AttributeError
  end.

(** [l[i]] *)
Definition index {A : Type} (l : list A) (i : nat) : result A :=
  match nth_error l i with
  | Some x => Ok x
  | None => Raise IndexError
  end.

(** Line 26: [data['image'].split(',')[1]]. *)
Definition image_data_of (data : json) : result string :=
  field <- getitem data "image" ;;
  parts <- str_split field ;;
  index parts 1.

Record AnalysisResult : Type := {
  emotions : EmotionScores;
  engagement : Z;
  attention : Z;
  timestamp : string
}.

Record Response : Type := { facial : AnalysisResult }.

(** [{k: round(v, 2) for k, v in emotions.items()}] *)
Definition round_scores (emo : EmotionScores) : EmotionScores :=
  map (fun kv => (fst kv, py_round (snd kv) 2)) emo.

(** What [Image.open] returns.  The file has been identified and its
    header read, the pixels have not been decoded: that happens when they
    are first needed, in the [convert] of line 11, and it can raise
    ([OSError] on a truncated file).  [load] is the outcome of that
    decoding: the image with its pixels, or the exception. *)
Record OpenedImage : Type := { load : result Image }.

Section Handler.

(** The two library calls of line 27, which are not code of the
    repository: [base64.b64decode] and [Image.open] over the bytes. *)
Variable b64decode : string -> result (list byte).
Variable image_open : list byte -> result OpenedImage.

(** Lines 27 to 35: decode the payload, score the image, build the
    response.  Line 28 calls the scorer on the opened image: its first
    statement, the [convert] of line 11, decodes the pixels, which is the
    [load] step here, and the rest of the scorer runs on the decoded
    image. *)
Definition analyse_payload (image_data : string) : result Response :=
  bytes <- b64decode image_data ;;
  opened <- image_open bytes ;;
  image <- load opened ;;
  emo <- basic_emotion_analysis image ;;
  let result :=
    {| emotions := round_scores emo;
       engagement := 50;
       attention := 50;
       timestamp := "now" |} in
  Ok {| facial := result |}.

Definition facial_analysis (data : json) : result Response :=
  image_data <- image_data_of data ;;
  analyse_payload image_data.

End Handler.

(** The part of a string after its first [sep], if there is one. *)
Fixpoint after_first (sep : ascii) (s : string) : option string :=
  match s with
  | EmptyString => None
  | String c s' => if Ascii.eqb c sep then Some s' else after_first sep s'
  end.

(** The part of a string before its first [sep] (all of it if none). *)
Fixpoint before_first (sep : ascii) (s : string) : string :=
  match s with
  | EmptyString => EmptyString
  | String c s' =>
      if Ascii.eqb c sep then EmptyString else String c (before_first sep s')
  end.

Fixpoint contains (sep : ascii) (s : string) : bool :=
  match s with
  | EmptyString => false
  | String c s' => Ascii.eqb c sep || contains sep s'
  end.

(** A data-URL in the specification's sense (section 6):
    [data:<mime>;base64,<payload>].  The source has no such check; the
    predicate only serves to state what the handler does not do. *)
Definition data_url (s : string) : bool :=
  String.prefix "data:" s &&
  match String.index 0 ";base64," s with
  | Some _ => true
  | None => false
  end.

(** The request body [{"image": field}]. *)
Definition body_with (field : json) : json := JObj [("image"%string, field)].

(* ================================================================= *)
(** ** Concrete inputs *)

Definition grey128 : rgb := (x80, x80, x80).

(** The 2x2 image of section 8, every pixel RGB (128, 128, 128). *)
Definition image_2x2_grey : Image :=
  {| width := 2; height := 2;
     pixels := RasterRGB [grey128; grey128; grey128; grey128];
     size_ok := eq_refl |}.

(** One black pixel, one white pixel. *)
Definition image_1x1_black : Image :=
  {| width := 1; height := 1;
     pixels := RasterRGB [(x00, x00, x00)]; size_ok := eq_refl |}.

Definition image_1x1_white : Image :=
  {| width := 1; height := 1;
     pixels := RasterRGB [(xff, xff, xff)]; size_ok := eq_refl |}.

(** A 1x1 image of luminance 1. *)
Definition image_1x1_dark : Image :=
  {| width := 1; height := 1; pixels := RasterL [x01]; size_ok := eq_refl |}.

(** The image with no pixels. *)
Definition image_0x0 : Image :=
  {| width := 0; height := 0; pixels := RasterRGB []; size_ok := eq_refl |}.

(** Decoders under which every payload is the encoding of the 2x2 image;
    they stand for the two library calls at a payload that is one. *)
Definition b64decode_any (payload : string) : result (list byte) := Ok [].
Definition image_open_2x2 (bytes : list byte) : result OpenedImage :=
  Ok {| load := Ok image_2x2_grey |}.

(* ================================================================= *)
(** ** Further vocabulary for the properties of the handler *)

(** [sep.join(l)] *)
Fixpoint join (sep : ascii) (l : list string) : string :=
  match l with
  | [] => EmptyString
  | [x] => x
  | x :: rest => x ++ String sep (join sep rest)
  end.

(** The hundredth [k / 100] as [round] returns it. *)
Definition hundredth (k : Z) : float := strtod false k 2.

(** The response built from the scores of an image (lines 29 to 35). *)
Definition response_of (emo : EmotionScores) : Response :=
  {| facial := {| emotions := round_scores emo; engagement := 50;
                  attention := 50; timestamp := "now" |} |}.

(** A 2x2 image with one white pixel; a 3x1 image and a 1x3 image of the
    same pixels in another order. *)
Definition image_2x2_spot : Image :=
  {| width := 2; height := 2;
     pixels := RasterL [x00; xff; x00; x00]; size_ok := eq_refl |}.

Definition image_3x1 : Image :=
  {| width := 3; height := 1;
     pixels := RasterL [x10; x80; xf0]; size_ok := eq_refl |}.

Definition image_1x3_shuffled : Image :=
  {| width := 1; height := 3;
     pixels := RasterL [xf0; x10; x80]; size_ok := eq_refl |}.

(** Decoders that reject every payload, that decode to no pixels, and
    that open a file whose pixel data are cut short. *)
Definition b64decode_none (payload : string) : result (list byte) :=
  Raise DecodeError.
Definition image_open_0x0 (bytes : list byte) : result OpenedImage :=
  Ok {| load := Ok image_0x0 |}.
Definition image_open_truncated (bytes : list byte) : result OpenedImage :=
  Ok {| load := Raise OSError |}.

(* ================================================================= *)
(** * Binary64 rounding: what the operations compute *)

Module Float64Facts.

(** ** Powers of two *)

Lemma pow2_pos (k : Z) : 0 <= k -> 0 < 2 ^ k.
Proof. intros; apply Z.pow_pos_nonneg; lia. Qed.

Lemma pow2_le (a b : Z) : 0 <= a <= b -> 2 ^ a <= 2 ^ b.
Proof. intros; apply Z.pow_le_mono_r; lia. Qed.

Lemma pow2_lt_inv (a b : Z) : 0 <= a -> 0 <= b -> 2 ^ a < 2 ^ b -> a < b.
Proof.
  intros Ha Hb H. destruct (Z_lt_le_dec a b) as [|Hle]; [assumption|].
  pose proof (pow2_le b a). lia.
Qed.

Lemma pow2_succ (k : Z) : 0 <= k -> 2 ^ (k + 1) = 2 * 2 ^ k.
Proof. intros; rewrite Z.pow_add_r by lia; lia. Qed.

(** ** Number of binary digits *)

Lemma digits_bounds (p : positive) :
  2 ^ (Zpos (digits2_pos p) - 1) <= Zpos p < 2 ^ Zpos (digits2_pos p).
Proof.
  induction p as [p IH | p IH |]; cbn [digits2_pos].
  - rewrite Pos2Z.inj_succ.
    replace (Z.succ (Z.pos (digits2_pos p)) - 1) with (Z.pos (digits2_pos p) - 1 + 1) by lia.
    rewrite (pow2_succ (Z.pos (digits2_pos p) - 1)) by lia.
    unfold Z.succ. rewrite (pow2_succ (Z.pos (digits2_pos p))) by lia. lia.
  - rewrite Pos2Z.inj_succ.
    replace (Z.succ (Z.pos (digits2_pos p)) - 1) with (Z.pos (digits2_pos p) - 1 + 1) by lia.
    rewrite (pow2_succ (Z.pos (digits2_pos p) - 1)) by lia.
    unfold Z.succ. rewrite (pow2_succ (Z.pos (digits2_pos p))) by lia. lia.
  - simpl. lia.
Qed.

Lemma Zdigits2_nonneg (m : Z) : 0 <= Zdigits2 m.
Proof. destruct m; simpl; lia. Qed.

Lemma Zdigits2_bounds (m : Z) :
  0 < m -> 2 ^ (Zdigits2 m - 1) <= m < 2 ^ Zdigits2 m.
Proof. destruct m; try lia. intros _. apply digits_bounds. Qed.

Lemma Zdigits2_unique (m d : Z) :
  0 < d -> 2 ^ (d - 1) <= m < 2 ^ d -> Zdigits2 m = d.
Proof.
  intros Hd [Hlo Hhi].
  assert (0 < m) by (pose proof (pow2_pos (d - 1)); lia).
  pose proof (Zdigits2_bounds m H) as [Hl Hh].
  pose proof (Zdigits2_nonneg m).
  assert (0 < Zdigits2 m) by (destruct m; simpl in *; lia).
  assert (d - 1 < Zdigits2 m) by (apply pow2_lt_inv; lia).
  assert (Zdigits2 m - 1 < d) by (apply pow2_lt_inv; lia).
  lia.
Qed.

Lemma Zdigits2_le (m d : Z) : 0 <= d -> 0 <= m < 2 ^ d -> Zdigits2 m <= d.
Proof.
  intros Hd [Hlo Hhi].
  destruct (Z.eq_dec m 0) as [->|]; [simpl; lia|].
  pose proof (Zdigits2_bounds m ltac:(lia)) as [Hl Hh].
  assert (0 < Zdigits2 m) by (destruct m; simpl in *; lia).
  assert (Zdigits2 m - 1 < d) by (apply pow2_lt_inv; lia).
  lia.
Qed.

Lemma Zdigits2_ge (m d : Z) : 0 <= d -> 2 ^ d <= m -> d < Zdigits2 m.
Proof.
  intros Hd H.
  assert (0 < m) by (pose proof (pow2_pos d); lia).
  pose proof (Zdigits2_bounds m H0) as [Hl Hh].
  pose proof (Zdigits2_nonneg m).
  apply pow2_lt_inv; lia.
Qed.

(** ** The exponent function of binary64 *)

Lemma fexp_eq (e : Z) : fexp prec emax e = Z.max (e - 53) (-1074).
Proof. reflexivity. Qed.

Lemma shr_1_represents (a c : Z) (mrs : shr_record) :
  0 <= a -> 0 < c -> represents a c mrs -> represents a (2 * c) (shr_1 mrs).
Proof.
  intros Ha Hc [Hm Hl].
  pose proof (Z.mod_pos_bound a c Hc) as Hr.
  pose proof (Z.div_pos a c Ha Hc) as Hq.
  assert (Hdiv : a / (2 * c) = (a / c) / 2)
    by (rewrite (Z.mul_comm 2 c), Z.div_div by lia; reflexivity).
  assert (Hmod : a mod (2 * c) = a mod c + c * ((a / c) mod 2))
    by (rewrite (Z.mul_comm 2 c); apply Z.rem_mul_r; lia).
  unfold represents, loc_of in *. rewrite Hdiv, Hmod. clear Hdiv Hmod.
  destruct mrs as [m r s]. cbn [shr_m] in Hm. rewrite <- Hm in *.
  set (r0 := a mod c) in *. clearbody r0. clear Hm.
  assert (Hloc : (r = false /\ s = false /\ r0 = 0) \/
                 (r = false /\ s = true /\ 0 < r0 /\ 2 * r0 < c) \/
                 (r = true /\ s = false /\ 2 * r0 = c) \/
                 (r = true /\ s = true /\ c < 2 * r0)).
  { destruct (Z.eqb_spec r0 0) as [E|E];
      [| destruct (Z.compare_spec (2 * r0) c)];
      destruct r, s; simpl in Hl; try discriminate Hl; lia. }
  clear Hl.
  destruct m as [|[p|p|]|p]; try lia; cbn [shr_1 shr_m loc_of_shr_record].
  - (* m = 0 *)
    change (0 / 2) with 0. change (0 mod 2) with 0.
    rewrite Z.mul_0_r, Z.add_0_r. split; [reflexivity|].
    destruct Hloc as [(-> & -> & ->)|[(-> & -> & H1 & H2)|[(-> & -> & H1)|(-> & -> & H1)]]];
      simpl orb; cbn [loc_of_shr_record].
    + reflexivity.
    + destruct (Z.eqb_spec r0 0); [lia|]. f_equal. symmetry. apply Z.compare_lt_iff. lia.
    + destruct (Z.eqb_spec r0 0); [lia|]. f_equal. symmetry. apply Z.compare_lt_iff. lia.
    + destruct (Z.eqb_spec r0 0); [lia|]. f_equal. symmetry. apply Z.compare_lt_iff. lia.
  - (* m = 2p+1 *)
    assert (E1 : Z.pos p~1 / 2 = Z.pos p)
      by (symmetry; apply (Z.div_unique (Z.pos p~1) 2 (Z.pos p) 1); lia).
    assert (E2 : Z.pos p~1 mod 2 = 1)
      by (symmetry; apply (Z.mod_unique (Z.pos p~1) 2 (Z.pos p) 1); lia).
    rewrite E1, E2, Z.mul_1_r. split; [reflexivity|].
    destruct (Z.eqb_spec (r0 + c) 0); [lia|].
    destruct Hloc as [(-> & -> & ->)|[(-> & -> & H1 & H2)|[(-> & -> & H1)|(-> & -> & H1)]]];
      simpl orb; cbn [loc_of_shr_record]; f_equal; symmetry.
    + apply Z.compare_eq_iff. lia.
    + apply Z.compare_gt_iff. lia.
    + apply Z.compare_gt_iff. lia.
    + apply Z.compare_gt_iff. lia.
  - (* m = 2p *)
    assert (E1 : Z.pos p~0 / 2 = Z.pos p)
      by (symmetry; apply (Z.div_unique (Z.pos p~0) 2 (Z.pos p) 0); lia).
    assert (E2 : Z.pos p~0 mod 2 = 0)
      by (symmetry; apply (Z.mod_unique (Z.pos p~0) 2 (Z.pos p) 0); lia).
    rewrite E1, E2, Z.mul_0_r, Z.add_0_r. split; [reflexivity|].
    destruct Hloc as [(-> & -> & ->)|[(-> & -> & H1 & H2)|[(-> & -> & H1)|(-> & -> & H1)]]];
      simpl orb; cbn [loc_of_shr_record].
    + reflexivity.
    + destruct (Z.eqb_spec r0 0); [lia|]. f_equal. symmetry. apply Z.compare_lt_iff. lia.
    + destruct (Z.eqb_spec r0 0); [lia|]. f_equal. symmetry. apply Z.compare_lt_iff. lia.
    + destruct (Z.eqb_spec r0 0); [lia|]. f_equal. symmetry. apply Z.compare_lt_iff. lia.
  - (* m = 1 *)
    change (1 / 2) with 0. change (1 mod 2) with 1. rewrite Z.mul_1_r.
    split; [reflexivity|].
    destruct (Z.eqb_spec (r0 + c) 0); [lia|].
    destruct Hloc as [(-> & -> & ->)|[(-> & -> & H1 & H2)|[(-> & -> & H1)|(-> & -> & H1)]]];
      simpl orb; cbn [loc_of_shr_record]; f_equal; symmetry.
    + apply Z.compare_eq_iff. lia.
    + apply Z.compare_gt_iff. lia.
    + apply Z.compare_gt_iff. lia.
    + apply Z.compare_gt_iff. lia.
Qed.

Lemma iter_shr_1_represents (p : positive) :
  forall (a c : Z) (mrs : shr_record),
  0 <= a -> 0 < c -> represents a c mrs ->
  represents a (c * 2 ^ Zpos p) (iter_pos shr_1 p mrs).
Proof.
  induction p as [p IH | p IH |]; intros a c mrs Ha Hc H; cbn [iter_pos].
  - pose proof (pow2_pos (Zpos p) ltac:(lia)).
    replace (c * 2 ^ Z.pos p~1) with ((2 * c) * 2 ^ Zpos p * 2 ^ Zpos p).
    + apply IH; [lia | nia |]. apply IH; [lia | lia |].
      apply shr_1_represents; assumption.
    + rewrite (Pos2Z.inj_xI p), Z.pow_add_r, Z.pow_mul_r by lia.
      change (2 ^ 2) with 4. change (2 ^ 1) with 2.
      replace (4 ^ Zpos p) with (2 ^ Zpos p * 2 ^ Zpos p); [ring|].
      rewrite <- Z.pow_mul_l. reflexivity.
  - pose proof (pow2_pos (Zpos p) ltac:(lia)).
    replace (c * 2 ^ Z.pos p~0) with (c * 2 ^ Zpos p * 2 ^ Zpos p).
    + apply IH; [lia | nia |]. apply IH; assumption.
    + rewrite (Pos2Z.inj_xO p), Z.pow_mul_r by lia.
      change (2 ^ 2) with 4.
      replace (4 ^ Zpos p) with (2 ^ Zpos p * 2 ^ Zpos p); [ring|].
      rewrite <- Z.pow_mul_l. reflexivity.
  - change (2 ^ 1) with 2. rewrite Z.mul_comm. apply shr_1_represents; assumption.
Qed.

Lemma shr_record_of_loc_represents (a c : Z) :
  represents a c (shr_record_of_loc (a / c) (loc_of a c)).
Proof.
  unfold represents. destruct (loc_of a c) as [|[| |]]; split; reflexivity.
Qed.

(** Shifting right by [n] places, with the rounding information. *)
Lemma shr_represents (a c : Z) (mrs : shr_record) (e n : Z) :
  0 <= a -> 0 < c -> 0 <= n -> represents a c mrs ->
  represents a (c * 2 ^ n) (fst (shr mrs e n)) /\ snd (shr mrs e n) = e + n.
Proof.
  intros Ha Hc Hn H. destruct n as [|p|p]; try lia; cbn [shr fst snd].
  - rewrite Z.mul_1_r, Z.add_0_r. split; [assumption | reflexivity].
  - split; [apply iter_shr_1_represents; assumption | reflexivity].
Qed.

Lemma shr_noop (mrs : shr_record) (e n : Z) : n <= 0 -> shr mrs e n = (mrs, e).
Proof. destruct n; try lia; reflexivity. Qed.

Lemma round_nearest_even_represents (a c : Z) (mrs : shr_record) :
  0 < c -> represents a c mrs ->
  round_nearest_even (shr_m mrs) (loc_of_shr_record mrs) = round_half_even a c.
Proof.
  intros Hc [Hm Hl]. rewrite Hm, Hl. unfold loc_of, round_half_even.
  pose proof (Z.mod_pos_bound a c Hc).
  destruct (Z.eqb_spec (a mod c) 0) as [E|E]; cbn [round_nearest_even].
  - replace (2 * (a mod c) ?= c) with Lt; [reflexivity|].
    symmetry. apply Z.compare_lt_iff. lia.
  - destruct (2 * (a mod c) ?= c); reflexivity.
Qed.

(** ** Rounding to the nearest integer *)

Lemma round_half_even_bounds (a c : Z) :
  0 < c -> a / c <= round_half_even a c <= a / c + 1.
Proof.
  intros Hc. unfold round_half_even.
  destruct (2 * (a mod c) ?= c); [destruct (Z.even (a / c))| |]; lia.
Qed.

Lemma round_half_even_le (a c k : Z) :
  0 < c -> a <= k * c -> round_half_even a c <= k.
Proof.
  intros Hc H. unfold round_half_even.
  pose proof (Z.mod_pos_bound a c Hc). pose proof (Z.div_mod a c ltac:(lia)).
  assert (a / c <= k) by nia.
  destruct (Z.compare_spec (2 * (a mod c)) c); [destruct (Z.even (a / c))| |]; nia.
Qed.

Lemma round_half_even_ge (a c k : Z) :
  0 < c -> k * c <= a -> k <= round_half_even a c.
Proof.
  intros Hc H. pose proof (round_half_even_bounds a c Hc).
  pose proof (Z.mod_pos_bound a c Hc). pose proof (Z.div_mod a c ltac:(lia)).
  assert (k <= a / c) by nia. lia.
Qed.

Lemma round_half_even_exact (k c : Z) : 0 < c -> round_half_even (k * c) c = k.
Proof.
  intros Hc. pose proof (round_half_even_le (k * c) c k Hc).
  pose proof (round_half_even_ge (k * c) c k Hc). lia.
Qed.

Lemma div_pow2_lt (m d n : Z) :
  0 <= m < 2 ^ d -> 0 <= n -> 0 <= d -> d - n <= 53 -> m / 2 ^ n < 2 ^ 53.
Proof.
  intros [Hm0 Hm] Hn Hd Hdn.
  pose proof (pow2_pos n Hn).
  apply Z.div_lt_upper_bound; [lia|].
  rewrite <- Z.pow_add_r by lia.
  assert (2 ^ d <= 2 ^ (n + 53)) by (apply pow2_le; lia). lia.
Qed.

Theorem binary_round_aux_spec (sx : bool) (a c ex : Z) :
  0 <= a -> 0 < c ->
  let e1 := fexp prec emax (Zdigits2 (a / c) + ex) in
  ex <= e1 ->
  binary_round_aux prec emax sx (a / c) ex (loc_of a c)
  = round_at sx a (c * 2 ^ (e1 - ex)) e1.
Proof.
  intros Ha Hc e1 He.
  unfold binary_round_aux, shr_fexp. fold e1.
  pose proof (shr_represents a c (shr_record_of_loc (a / c) (loc_of a c)) ex
                (e1 - ex) Ha Hc ltac:(lia) (shr_record_of_loc_represents a c))
    as [Hrep Hexp].
  destruct (shr (shr_record_of_loc (a / c) (loc_of a c)) ex (e1 - ex))
    as [mrs' e'] eqn:E1.
  cbn [fst snd] in Hrep, Hexp. replace (ex + (e1 - ex)) with e1 in Hexp by lia.
  subst e'.
  pose proof (pow2_pos (e1 - ex) ltac:(lia)) as Hpow.
  set (c' := c * 2 ^ (e1 - ex)) in *.
  assert (Hc' : 0 < c') by (unfold c'; nia).
  rewrite (round_nearest_even_represents a c' mrs' Hc' Hrep).
  unfold round_at.
  pose proof (round_half_even_bounds a c' Hc') as Hb.
  assert (Hq : 0 <= a / c') by (apply Z.div_pos; lia).
  (* the shifted mantissa has at most 53 digits *)
  assert (Hlt : a / c' < 2 ^ 53).
  { unfold c'. rewrite <- Z.div_div by lia.
    pose proof (Z.div_pos a c Ha Hc) as Hq0.
    pose proof (Zdigits2_nonneg (a / c)) as Hd.
    destruct (Z.eq_dec (a / c) 0) as [E0|E0].
    - rewrite E0, Z.div_0_l by lia. reflexivity.
    - apply (div_pow2_lt _ (Zdigits2 (a / c))); try lia.
      + pose proof (Zdigits2_bounds (a / c) ltac:(lia)). lia.
      + unfold e1. rewrite fexp_eq. lia. }
  assert (He1 : -1074 <= e1) by (unfold e1; rewrite fexp_eq; lia).
  set (m := round_half_even a c') in *.
  destruct (Z.ltb_spec m (2 ^ 53)) as [Hm|Hm].
  - (* no carry *)
    assert (Hdm : Zdigits2 m <= 53) by (apply Zdigits2_le; lia).
    rewrite shr_noop by (rewrite fexp_eq; lia).
    cbn [shr_m shr_record_of_loc]. unfold pack.
    destruct m; try lia; reflexivity.
  - (* the rounded mantissa is 2^53 *)
    assert (Em : m = 2 ^ 53) by lia. rewrite Em.
    change (Zdigits2 (2 ^ 53)) with 54.
    replace (fexp prec emax (54 + e1) - e1) with 1 by (rewrite fexp_eq; lia).
    reflexivity.
Qed.

Lemma div_lt_iff (a c k : Z) : 0 < c -> (a / c < k <-> a < k * c).
Proof.
  intros Hc. pose proof (Z.mod_pos_bound a c Hc). pose proof (Z.div_mod a c ltac:(lia)).
  split; intros; nia.
Qed.

Lemma div_ge_iff (a c k : Z) : 0 < c -> (k <= a / c <-> k * c <= a).
Proof.
  intros Hc. pose proof (Z.mod_pos_bound a c Hc). pose proof (Z.div_mod a c ltac:(lia)).
  split; intros; nia.
Qed.

(** The exponent [binary_round_aux] settles on is the positioned one. *)
Lemma positioned_fexp (a c ex : Z) :
  0 <= a -> 0 < c ->
  let e1 := fexp prec emax (Zdigits2 (a / c) + ex) in
  ex <= e1 ->
  positioned a (c * 2 ^ (e1 - ex)) e1.
Proof.
  intros Ha Hc e1 He.
  pose proof (pow2_pos (e1 - ex) ltac:(lia)) as Hpow.
  pose proof (Z.div_pos a c Ha Hc) as Hq.
  pose proof (Zdigits2_nonneg (a / c)) as Hd.
  assert (He1 : e1 = Z.max (Zdigits2 (a / c) + ex - 53) (-1074)) by reflexivity.
  assert (Hc' : 0 < c * 2 ^ (e1 - ex)) by nia.
  unfold positioned. split; [lia|]. split.
  - apply (proj1 (div_lt_iff a (c * 2 ^ (e1 - ex)) (2 ^ 53) Hc')).
    rewrite <- Z.div_div by lia.
    destruct (Z.eq_dec (a / c) 0) as [E0|E0].
    + rewrite E0, Z.div_0_l by lia. reflexivity.
    + apply (div_pow2_lt _ (Zdigits2 (a / c))); try lia.
      pose proof (Zdigits2_bounds (a / c) ltac:(lia)). lia.
  - intros Hgt. apply (proj1 (div_ge_iff a (c * 2 ^ (e1 - ex)) (2 ^ 52) Hc')).
    rewrite <- Z.div_div by lia.
    assert (En : e1 - ex = Zdigits2 (a / c) - 53) by lia.
    destruct (Z.eq_dec (a / c) 0) as [E0|E0].
    + rewrite E0 in *. simpl in En. lia.
    + pose proof (Zdigits2_bounds (a / c) ltac:(lia)) as [Hlo _].
      apply div_ge_iff; [lia|].
      rewrite <- Z.pow_add_r by lia.
      replace (52 + (e1 - ex)) with (Zdigits2 (a / c) - 1) by lia. assumption.
Qed.

(** *** What [round_at] returns *)

Lemma round_half_even_nonneg (a c : Z) : 0 <= a -> 0 < c -> 0 <= round_half_even a c.
Proof.
  intros Ha Hc. pose proof (round_half_even_bounds a c Hc).
  pose proof (Z.div_pos a c Ha Hc). lia.
Qed.

Lemma positioned_round_range (a c e : Z) :
  0 <= a -> 0 < c -> positioned a c e ->
  0 <= round_half_even a c <= 2 ^ 53 /\
  (-1074 < e -> 2 ^ 52 <= round_half_even a c).
Proof.
  intros Ha Hc (He & Hhi & Hlo).
  pose proof (round_half_even_nonneg a c Ha Hc).
  split; [split; [assumption|] |].
  - apply round_half_even_le; lia.
  - intros Hgt. apply round_half_even_ge; [assumption|]. apply Hlo, Hgt.
Qed.

Lemma valid_pack (sx : bool) (m e : Z) :
  0 <= m < 2 ^ 53 -> -1074 <= e -> (-1074 < e -> 2 ^ 52 <= m) ->
  valid (pack sx m e).
Proof.
  intros [Hm0 Hm] He Hn. unfold valid, pack.
  destruct m as [|p|p]; try lia; [reflexivity|].
  destruct (Z.leb_spec e (emax - prec)) as [Hle|Hle]; [|reflexivity].
  cbn [valid_binary]. unfold bounded, canonical_mantissa.
  apply andb_true_intro. split; [|apply Z.leb_le; assumption].
  apply Z.eqb_eq. rewrite fexp_eq.
  change (Z.pos (digits2_pos p)) with (Zdigits2 (Zpos p)).
  destruct (Z.eq_dec e (-1074)) as [->|Hne].
  - pose proof (Zdigits2_le (Zpos p) 53 ltac:(lia) ltac:(lia)). lia.
  - rewrite (Zdigits2_unique (Zpos p) 53); [lia | lia |].
    split; [apply Hn; lia | assumption].
Qed.

Lemma round_at_valid (sx : bool) (a c e : Z) :
  0 <= a -> 0 < c -> positioned a c e -> valid (round_at sx a c e).
Proof.
  intros Ha Hc Hp.
  destruct (positioned_round_range a c e Ha Hc Hp) as [[Hm0 Hm] Hn].
  destruct Hp as (He & _). unfold round_at.
  destruct (Z.ltb_spec (round_half_even a c) (2 ^ 53)).
  - apply valid_pack; [lia | assumption | assumption].
  - apply valid_pack; [ | lia | ]; intros; (split || idtac); reflexivity || lia.
Qed.

Lemma valid_finite_inv (s : bool) (m : positive) (e : Z) :
  valid (S754_finite s m e) ->
  -1074 <= e <= 971 /\ Zpos m < 2 ^ 53 /\ (-1074 < e -> 2 ^ 52 <= Zpos m).
Proof.
  unfold valid. cbn [valid_binary]. unfold bounded, canonical_mantissa.
  intros H. apply andb_prop in H. destruct H as [H1 H2].
  apply Z.eqb_eq in H1. apply Z.leb_le in H2. rewrite fexp_eq in H1.
  change (emax - prec) with 971 in H2.
  pose proof (digits_bounds m) as [Hlo Hhi].
  assert (Hd : Z.pos (digits2_pos m) <= 53) by lia.
  split; [lia|]. split.
  - pose proof (pow2_le (Z.pos (digits2_pos m)) 53 ltac:(lia)). lia.
  - intros Hgt. assert (Z.pos (digits2_pos m) = 53) as E by lia.
    rewrite E in Hlo. exact Hlo.
Qed.

Lemma ival_pack (m e : Z) :
  0 <= m -> e <= 971 -> ival (pack false m e) = m * 2 ^ (e + 1074).
Proof.
  intros Hm He. unfold pack. destruct m as [|p|p]; try lia; [reflexivity|].
  change (emax - prec) with 971.
  destruct (Z.leb_spec e 971); [|lia]. cbn [ival]. lia.
Qed.

Lemma nonneg_finite_pack (m e : Z) :
  0 <= m -> e <= 971 -> nonneg_finite (pack false m e).
Proof.
  intros Hm He. unfold pack. destruct m as [|p|p]; try lia; [exact I|].
  change (emax - prec) with 971.
  destruct (Z.leb_spec e 971); [exact I|lia].
Qed.

(** The value of a rounding that does not overflow. *)
Lemma round_at_value (a c e : Z) :
  0 <= a -> 0 < c -> positioned a c e ->
  (if round_half_even a c <? 2 ^ 53 then e else e + 1) <= 971 ->
  nonneg_finite (round_at false a c e) /\
  ival (round_at false a c e) = round_half_even a c * 2 ^ (e + 1074).
Proof.
  intros Ha Hc Hp Hov.
  destruct (positioned_round_range a c e Ha Hc Hp) as [[Hm0 Hm] _].
  destruct Hp as (He & _). unfold round_at.
  destruct (Z.ltb_spec (round_half_even a c) (2 ^ 53)) as [Hlt|Hge].
  - split; [apply nonneg_finite_pack | apply ival_pack]; lia.
  - split; [apply nonneg_finite_pack; lia|].
    rewrite ival_pack by lia.
    replace (round_half_even a c) with (2 ^ 53) by lia.
    replace (e + 1 + 1074) with (e + 1074 + 1) by lia.
    rewrite pow2_succ by lia. change (2 ^ 53) with (2 ^ 52 * 2). ring.
Qed.

(** Rounding is monotone against a representable bound: from above... *)
Lemma round_at_le (a c e : Z) (mb : positive) (eb : Z) :
  0 <= a -> 0 < c -> positioned a c e ->
  valid (S754_finite false mb eb) ->
  a * 2 ^ (e + 1074) <= c * (Zpos mb * 2 ^ (eb + 1074)) ->
  nonneg_finite (round_at false a c e) /\
  ival (round_at false a c e) <= Zpos mb * 2 ^ (eb + 1074).
Proof.
  intros Ha Hc Hp Hv Hle.
  destruct (valid_finite_inv _ _ _ Hv) as (Heb & Hmb & Hnb).
  pose proof Hp as (He & Hhi & Hlo).
  pose proof (pow2_pos (e + 1074) ltac:(lia)) as HP.
  pose proof (pow2_pos (eb + 1074) ltac:(lia)) as HQ.
  assert (Hee : e <= eb).
  { destruct (Z_le_gt_dec e eb) as [|Hgt]; [assumption|exfalso].
    specialize (Hlo ltac:(lia)).
    assert (E : 2 ^ (e + 1074) = 2 ^ (eb + 1074) * 2 ^ (e - eb))
      by (rewrite <- Z.pow_add_r by lia; f_equal; lia).
    assert (2 <= 2 ^ (e - eb)) by (apply (pow2_le 1 (e - eb)); lia).
    assert (2 ^ 52 * c * (2 ^ (eb + 1074) * 2) <= a * 2 ^ (e + 1074)).
    { rewrite E. apply Z.mul_le_mono_nonneg; nia. }
    assert (Zpos mb * (c * 2 ^ (eb + 1074)) < 2 ^ 53 * (c * 2 ^ (eb + 1074)))
      by (apply Z.mul_lt_mono_pos_r; nia).
    change (2 ^ 53) with (2 ^ 52 * 2) in *. nia. }
  assert (E : 2 ^ (eb + 1074) = 2 ^ (eb - e) * 2 ^ (e + 1074))
    by (rewrite <- Z.pow_add_r by lia; f_equal; lia).
  pose proof (pow2_pos (eb - e) ltac:(lia)) as HT.
  assert (HaK : a <= (Zpos mb * 2 ^ (eb - e)) * c).
  { apply (Z.mul_le_mono_pos_r _ _ (2 ^ (e + 1074)) HP).
    rewrite E in Hle. nia. }
  pose proof (round_half_even_le a c _ Hc HaK) as Hm.
  assert (Hov : (if round_half_even a c <? 2 ^ 53 then e else e + 1) <= 971).
  { destruct (Z.ltb_spec (round_half_even a c) (2 ^ 53)) as [Hlt|Hge]; [lia|].
    destruct (Z.eq_dec e eb) as [->|]; [|lia].
    rewrite Z.sub_diag in Hm. change (2 ^ 0) with 1 in Hm. lia. }
  destruct (round_at_value a c e Ha Hc Hp Hov) as [Hnf Hval].
  split; [assumption|]. rewrite Hval, E. nia.
Qed.

(** ... and from below. *)
Lemma round_at_ge (a c e : Z) (mb : positive) (eb : Z) :
  0 <= a -> 0 < c -> positioned a c e ->
  valid (S754_finite false mb eb) ->
  c * (Zpos mb * 2 ^ (eb + 1074)) <= a * 2 ^ (e + 1074) ->
  (if round_half_even a c <? 2 ^ 53 then e else e + 1) <= 971 ->
  Zpos mb * 2 ^ (eb + 1074) <= ival (round_at false a c e).
Proof.
  intros Ha Hc Hp Hv Hle Hov.
  destruct (valid_finite_inv _ _ _ Hv) as (Heb & Hmb & Hnb).
  destruct (round_at_value a c e Ha Hc Hp Hov) as [_ ->].
  destruct (positioned_round_range a c e Ha Hc Hp) as [[Hm0 Hm] Hn].
  pose proof Hp as (He & Hhi & Hlo).
  pose proof (pow2_pos (e + 1074) ltac:(lia)) as HP.
  pose proof (pow2_pos (eb + 1074) ltac:(lia)) as HQ.
  assert (Hee : eb <= e).
  { destruct (Z_le_gt_dec eb e) as [|Hgt]; [assumption|exfalso].
    specialize (Hnb ltac:(lia)).
    assert (E : 2 ^ (eb + 1074) = 2 ^ (e + 1074) * 2 ^ (eb - e))
      by (rewrite <- Z.pow_add_r by lia; f_equal; lia).
    assert (2 <= 2 ^ (eb - e)) by (apply (pow2_le 1 (eb - e)); lia).
    assert (a * 2 ^ (e + 1074) < 2 ^ 53 * c * 2 ^ (e + 1074))
      by (apply Z.mul_lt_mono_pos_r; lia).
    assert (c * (2 ^ 52 * (2 ^ (e + 1074) * 2)) <= c * (Zpos mb * 2 ^ (eb + 1074))).
    { rewrite E. apply Z.mul_le_mono_nonneg_l; [lia|].
      apply Z.mul_le_mono_nonneg; nia. }
    change (2 ^ 53) with (2 ^ 52 * 2) in *. nia. }
  destruct (Z.eq_dec e eb) as [->|Hne].
  - apply Z.mul_le_mono_nonneg_r; [lia|].
    apply round_half_even_ge; [assumption|].
    apply (Z.mul_le_mono_pos_r _ _ (2 ^ (eb + 1074)) HP). nia.
  - specialize (Hn ltac:(lia)).
    assert (E : 2 ^ (e + 1074) = 2 ^ (eb + 1074) * 2 ^ (e - eb))
      by (rewrite <- Z.pow_add_r by lia; f_equal; lia).
    assert (2 <= 2 ^ (e - eb)) by (apply (pow2_le 1 (e - eb)); lia).
    rewrite E.
    assert (Zpos mb * 2 ^ (eb + 1074) <= 2 ^ 52 * 2 * 2 ^ (eb + 1074))
      by (apply Z.mul_le_mono_nonneg_r; [lia|]; change (2 ^ 52 * 2) with (2 ^ 53); lia).
    assert (2 ^ 52 * (2 ^ (eb + 1074) * 2) <= round_half_even a c * (2 ^ (eb + 1074) * 2 ^ (e - eb))).
    { apply Z.mul_le_mono_nonneg; nia. }
    nia.
Qed.

(** *** Order and equality of valid floats *)

Lemma finite_lt_by_exponent (m1 m2 e1 e2 : Z) :
  0 <= m1 < 2 ^ 53 -> 2 ^ 52 <= m2 -> -1074 <= e1 < e2 ->
  m1 * 2 ^ (e1 + 1074) < m2 * 2 ^ (e2 + 1074).
Proof.
  intros Hm1 Hm2 He.
  pose proof (pow2_pos (e1 + 1074) ltac:(lia)) as HP.
  assert (E : 2 ^ (e2 + 1074) = 2 ^ (e1 + 1074) * 2 ^ (e2 - e1))
    by (rewrite <- Z.pow_add_r by lia; f_equal; lia).
  assert (2 <= 2 ^ (e2 - e1)) by (apply (pow2_le 1 (e2 - e1)); lia).
  rewrite E.
  assert (m1 * 2 ^ (e1 + 1074) < 2 ^ 53 * 2 ^ (e1 + 1074))
    by (apply Z.mul_lt_mono_pos_r; lia).
  assert (2 ^ 52 * (2 ^ (e1 + 1074) * 2) <= m2 * (2 ^ (e1 + 1074) * 2 ^ (e2 - e1)))
    by (apply Z.mul_le_mono_nonneg; nia).
  change (2 ^ 53) with (2 ^ 52 * 2) in *. nia.
Qed.

Lemma SFcompare_ival (x y : float) :
  valid x -> valid y -> nonneg_finite x -> nonneg_finite y ->
  SFcompare x y = Some (ival x ?= ival y).
Proof.
  intros Vx Vy Nx Ny.
  destruct x as [[|]| | |[|] m1 e1]; try contradiction;
  destruct y as [[|]| | |[|] m2 e2]; try contradiction; cbn [SFcompare ival].
  - reflexivity.
  - destruct (valid_finite_inv _ _ _ Vy) as (He & _).
    pose proof (pow2_pos (e2 + 1074) ltac:(lia)).
    f_equal. symmetry. apply Z.compare_lt_iff. nia.
  - destruct (valid_finite_inv _ _ _ Vx) as (He & _).
    pose proof (pow2_pos (e1 + 1074) ltac:(lia)).
    f_equal. symmetry. apply Z.compare_gt_iff. nia.
  - destruct (valid_finite_inv _ _ _ Vx) as (He1 & Hm1 & Hn1).
    destruct (valid_finite_inv _ _ _ Vy) as (He2 & Hm2 & Hn2).
    rewrite !Z.mul_1_l. f_equal.
    destruct (Z.compare_spec e1 e2) as [->|Hlt|Hgt]; symmetry.
    + pose proof (pow2_pos (e2 + 1074) ltac:(lia)).
      rewrite <- Zmult_compare_compat_r by lia. reflexivity.
    + apply Z.compare_lt_iff. apply finite_lt_by_exponent; lia.
    + apply Z.compare_gt_iff. apply finite_lt_by_exponent; lia.
Qed.

Lemma fle_ival (x y : float) :
  valid x -> valid y -> nonneg_finite x -> nonneg_finite y ->
  fle x y = (ival x <=? ival y).
Proof.
  intros Vx Vy Nx Ny. unfold fle, SFleb.
  rewrite (SFcompare_ival x y Vx Vy Nx Ny).
  destruct (Z.compare_spec (ival x) (ival y)); symmetry;
    [apply Z.leb_le | apply Z.leb_le | apply Z.leb_gt]; lia.
Qed.

Lemma flt_ival (x y : float) :
  valid x -> valid y -> nonneg_finite x -> nonneg_finite y ->
  flt x y = (ival x <? ival y).
Proof.
  intros Vx Vy Nx Ny. unfold flt, SFltb.
  rewrite (SFcompare_ival x y Vx Vy Nx Ny).
  destruct (Z.compare_spec (ival x) (ival y)); symmetry;
    [apply Z.ltb_ge | apply Z.ltb_lt | apply Z.ltb_ge]; lia.
Qed.

Lemma ival_nonneg (x : float) : valid x -> nonneg_finite x -> 0 <= ival x.
Proof.
  intros V N. destruct x as [[|]| | |[|] m e]; try contradiction; cbn [ival]; [lia|].
  destruct (valid_finite_inv _ _ _ V) as (He & _).
  pose proof (pow2_pos (e + 1074) ltac:(lia)). nia.
Qed.

Lemma ival_inj (x y : float) :
  valid x -> valid y -> nonneg_finite x -> nonneg_finite y ->
  ival x = ival y -> x = y.
Proof.
  intros Vx Vy Nx Ny E.
  pose proof (SFcompare_ival x y Vx Vy Nx Ny) as H.
  rewrite E, Z.compare_refl in H.
  destruct x as [[|]| | |[|] m1 e1]; try contradiction;
  destruct y as [[|]| | |[|] m2 e2]; try contradiction; cbn [SFcompare] in H;
    try discriminate H; [reflexivity|].
  destruct (Z.compare_spec e1 e2) as [->|Hlt|Hgt]; try discriminate H.
  injection H as H. apply (Pos.compare_eq m1 m2) in H. subst. reflexivity.
Qed.

(** *** [round_at] depends on the value only *)

Lemma round_half_even_scale (a c t : Z) :
  0 < c -> 0 < t -> round_half_even (a * t) (c * t) = round_half_even a c.
Proof.
  intros Hc Ht. unfold round_half_even.
  rewrite Z.div_mul_cancel_r by lia.
  rewrite Zmult_mod_distr_r.
  replace (2 * (a mod c * t)) with (2 * (a mod c) * t) by ring.
  rewrite <- Zmult_compare_compat_r by lia. reflexivity.
Qed.

Lemma round_half_even_cross (a1 c1 a2 c2 : Z) :
  0 < c1 -> 0 < c2 -> a1 * c2 = a2 * c1 ->
  round_half_even a1 c1 = round_half_even a2 c2.
Proof.
  intros H1 H2 E.
  rewrite <- (round_half_even_scale a1 c1 c2 H1 H2).
  rewrite <- (round_half_even_scale a2 c2 c1 H2 H1).
  rewrite E, (Z.mul_comm c1 c2). reflexivity.
Qed.

Lemma positioned_exponent_le (a1 c1 e1 a2 c2 e2 : Z) :
  0 <= a1 -> 0 < c1 -> 0 < c2 ->
  positioned a1 c1 e1 -> positioned a2 c2 e2 ->
  a1 * c2 * 2 ^ (e1 + 1074) = a2 * c1 * 2 ^ (e2 + 1074) ->
  e2 <= e1.
Proof.
  intros Ha1 Hc1 Hc2 (He1 & Hhi1 & Hlo1) (He2 & Hhi2 & Hlo2) E.
  destruct (Z_le_gt_dec e2 e1) as [|Hgt]; [assumption|exfalso].
  specialize (Hlo2 ltac:(lia)).
  assert (H : a1 * c2 * 2 ^ (e1 + 1074) < a2 * c1 * 2 ^ (e2 + 1074)).
  { replace (a1 * c2 * 2 ^ (e1 + 1074)) with ((a1 * c2) * 2 ^ (e1 + 1074)) by ring.
    replace (a2 * c1 * 2 ^ (e2 + 1074)) with ((a2 * c1) * 2 ^ (e2 + 1074)) by ring.
    assert (0 <= a1 * c2 < 2 ^ 53 * (c1 * c2)) by nia.
    assert (2 ^ 52 * (c1 * c2) <= a2 * c1) by nia.
    pose proof (pow2_pos (e1 + 1074) ltac:(lia)) as HP.
    assert (E' : 2 ^ (e2 + 1074) = 2 ^ (e1 + 1074) * 2 ^ (e2 - e1))
      by (rewrite <- Z.pow_add_r by lia; f_equal; lia).
    assert (2 <= 2 ^ (e2 - e1)) by (apply (pow2_le 1 (e2 - e1)); lia).
    rewrite E'.
    assert (a1 * c2 * 2 ^ (e1 + 1074) < 2 ^ 53 * (c1 * c2) * 2 ^ (e1 + 1074))
      by (apply Z.mul_lt_mono_pos_r; lia).
    assert (2 ^ 52 * (c1 * c2) * (2 ^ (e1 + 1074) * 2)
            <= a2 * c1 * (2 ^ (e1 + 1074) * 2 ^ (e2 - e1)))
      by (apply Z.mul_le_mono_nonneg; nia).
    change (2 ^ 53) with (2 ^ 52 * 2) in *. nia. }
  lia.
Qed.

Lemma round_at_ext (sx : bool) (a1 c1 e1 a2 c2 e2 : Z) :
  0 <= a1 -> 0 < c1 -> 0 <= a2 -> 0 < c2 ->
  positioned a1 c1 e1 -> positioned a2 c2 e2 ->
  a1 * c2 * 2 ^ (e1 + 1074) = a2 * c1 * 2 ^ (e2 + 1074) ->
  round_at sx a1 c1 e1 = round_at sx a2 c2 e2.
Proof.
  intros Ha1 Hc1 Ha2 Hc2 P1 P2 E.
  pose proof (positioned_exponent_le a1 c1 e1 a2 c2 e2 Ha1 Hc1 Hc2 P1 P2 E).
  pose proof (positioned_exponent_le a2 c2 e2 a1 c1 e1 Ha2 Hc2 Hc1 P2 P1 (eq_sym E)).
  assert (e1 = e2) by lia. subst e2.
  destruct P1 as (He & _).
  pose proof (pow2_pos (e1 + 1074) ltac:(lia)) as HP.
  assert (a1 * c2 = a2 * c1) by (apply (Z.mul_cancel_r _ _ (2 ^ (e1 + 1074))); lia).
  unfold round_at. rewrite (round_half_even_cross a1 c1 a2 c2) by assumption.
  reflexivity.
Qed.

(** *** [round_rat] *)

Lemma positioned_rat (n d : Z) :
  0 <= n -> 0 < d ->
  let E := Z.max (Zdigits2 (n / d) - 53) 0 in
  0 <= E /\ positioned n (d * 2 ^ E) (E - 1074).
Proof.
  intros Hn Hd E. split; [lia|].
  pose proof (positioned_fexp n d (-1074) Hn Hd) as H. cbv zeta in H.
  rewrite fexp_eq in H.
  replace (Z.max (Zdigits2 (n / d) + -1074 - 53) (-1074)) with (E - 1074) in H by lia.
  replace (E - 1074 - -1074) with E in H by lia.
  apply H. lia.
Qed.

Lemma round_rat_valid (sx : bool) (n d : Z) :
  0 <= n -> 0 < d -> valid (round_rat sx n d).
Proof.
  intros Hn Hd. destruct (positioned_rat n d Hn Hd) as [HE HP].
  pose proof (pow2_pos _ HE). apply round_at_valid; [lia | nia | exact HP].
Qed.

Lemma round_rat_le (n d : Z) (b : float) :
  0 <= n -> 0 < d -> valid b -> nonneg_finite b -> n <= d * ival b ->
  nonneg_finite (round_rat false n d) /\ ival (round_rat false n d) <= ival b.
Proof.
  intros Hn Hd Vb Nb Hle. destruct (positioned_rat n d Hn Hd) as [HE HP].
  pose proof (pow2_pos _ HE) as HpE. unfold round_rat.
  set (E := Z.max (Zdigits2 (n / d) - 53) 0) in *.
  destruct b as [[|]| | |[|] mb eb]; try contradiction; cbn [ival] in *.
  - (* the bound is zero: so is the number *)
    assert (n = 0) by lia. subst n.
    unfold round_at, round_half_even.
    rewrite Z.div_0_l, Z.mod_0_l by nia.
    replace (2 * 0 ?= d * 2 ^ E) with Lt by (symmetry; apply Z.compare_lt_iff; nia).
    split; [exact I | reflexivity].
  - rewrite Z.mul_1_l in *.
    apply round_at_le; [lia | nia | exact HP | exact Vb |].
    replace (E - 1074 + 1074) with E by lia. nia.
Qed.

Lemma round_at_no_overflow (a c e : Z) :
  0 <= a -> 0 < c -> positioned a c e ->
  nonneg_finite (round_at false a c e) ->
  (if round_half_even a c <? 2 ^ 53 then e else e + 1) <= 971.
Proof.
  intros Ha Hc Hp.
  destruct (positioned_round_range a c e Ha Hc Hp) as [[Hm0 Hm] Hn].
  unfold round_at, pack. change (emax - prec) with 971.
  destruct (Z.ltb_spec (round_half_even a c) (2 ^ 53)) as [Hlt|Hge].
  - destruct (round_half_even a c) as [|p|p]; try lia.
    destruct (Z.leb_spec e 971); [lia | intros []].
  - change (2 ^ 52) with (Zpos 4503599627370496).
    destruct (Z.leb_spec (e + 1) 971); [lia | intros []].
Qed.

Lemma round_rat_ge (n d : Z) (b : float) :
  0 <= n -> 0 < d -> valid b -> nonneg_finite b -> d * ival b <= n ->
  nonneg_finite (round_rat false n d) ->
  ival b <= ival (round_rat false n d).
Proof.
  intros Hn Hd Vb Nb Hle Hfin. destruct (positioned_rat n d Hn Hd) as [HE HP].
  pose proof (pow2_pos _ HE) as HpE.
  destruct b as [[|]| | |[|] mb eb]; try contradiction.
  - apply ival_nonneg; [apply round_rat_valid; assumption | assumption].
  - unfold round_rat in *. set (E := Z.max (Zdigits2 (n / d) - 53) 0) in *.
    cbn [ival] in *. rewrite Z.mul_1_l in *.
    apply round_at_ge; [lia | nia | exact HP | exact Vb | |].
    + replace (E - 1074 + 1074) with E by lia. nia.
    + apply round_at_no_overflow; [lia | nia | exact HP | exact Hfin].
Qed.

(** A representable number rounds to itself. *)
Lemma round_rat_exact (d : Z) (b : float) :
  0 < d -> valid b -> nonneg_finite b -> round_rat false (d * ival b) d = b.
Proof.
  intros Hd Vb Nb. pose proof (ival_nonneg b Vb Nb) as H0.
  assert (Hn : 0 <= d * ival b) by nia.
  destruct (round_rat_le (d * ival b) d b Hn Hd Vb Nb ltac:(lia)) as [Hfin Hle].
  pose proof (round_rat_ge (d * ival b) d b Hn Hd Vb Nb ltac:(lia) Hfin).
  apply ival_inj; [apply round_rat_valid | | | |]; try assumption. lia.
Qed.

(** *** Division *)

Lemma new_location_spec (c r : Z) :
  0 < c -> 0 <= r < c ->
  new_location c r = if r =? 0 then loc_Exact else loc_Inexact (2 * r ?= c).
Proof.
  intros Hc Hr. unfold new_location, new_location_even, new_location_odd.
  destruct (Z.even c) eqn:Ev; [reflexivity|].
  destruct (Z.eqb_spec r 0); [reflexivity|]. f_equal.
  assert (Hodd : Z.odd c = true) by (rewrite <- Z.negb_even, Ev; reflexivity).
  apply Z.odd_spec in Hodd. destruct Hodd as [k Hk].
  destruct (Z.compare_spec (2 * r + 1) c); symmetry;
    [apply Z.compare_lt_iff | apply Z.compare_lt_iff | apply Z.compare_gt_iff]; lia.
Qed.

Lemma fexp_mono (a b : Z) : a <= b -> fexp prec emax a <= fexp prec emax b.
Proof. intros. rewrite !fexp_eq. lia. Qed.

Lemma fdiv_finite (sx sy : bool) (mx my : positive) (ex ey : Z) :
  -1074 <= ex -> -1074 <= ey ->
  fdiv (S754_finite sx mx ex) (S754_finite sy my ey)
  = round_rat (xorb sx sy) (Zpos mx * 2 ^ (ex + 1074) * 2 ^ 1074)
                           (Zpos my * 2 ^ (ey + 1074)).
Proof.
  intros Hex Hey. unfold fdiv. cbn [SFdiv]. unfold SFdiv_core_binary.
  cbn [Zdigits2].
  change (Z.pos (digits2_pos mx)) with (Zdigits2 (Zpos mx)).
  change (Z.pos (digits2_pos my)) with (Zdigits2 (Zpos my)).
  set (d1 := Zdigits2 (Zpos mx)). set (d2 := Zdigits2 (Zpos my)).
  set (e' := Z.min (fexp prec emax (d1 + ex - (d2 + ey))) (ex - ey)).
  set (s := ex - ey - e').
  assert (Hs : 0 <= s) by (unfold s, e'; lia).
  assert (Em : match s with
               | 0 => Z.pos mx
               | Z.pos _ => Z.shiftl (Z.pos mx) s
               | Z.neg _ => 0
               end = Zpos mx * 2 ^ s).
  { destruct s as [|p|p] eqn:Es; [| |lia].
    - change (2 ^ 0) with 1. lia.
    - rewrite <- Es. apply Z.shiftl_mul_pow2. lia. }
  rewrite Em. clear Em.
  set (a := Zpos mx * 2 ^ s).
  pose proof (pow2_pos s Hs) as Hps.
  assert (Ha : 0 <= a) by (unfold a; nia).
  assert (Hc : 0 < Zpos my) by lia.
  assert (Ediv : Z.div_eucl a (Zpos my) = (a / Zpos my, a mod Zpos my)).
  { unfold Z.div, Z.modulo. destruct (Z.div_eucl a (Z.pos my)); reflexivity. }
  rewrite Ediv.
  pose proof (Z.mod_pos_bound a (Zpos my) Hc) as Hr.
  rewrite (new_location_spec (Zpos my) (a mod Zpos my) Hc Hr).
  fold (loc_of a (Zpos my)).
  (* the quotient has enough digits for one rounding *)
  pose proof (Zdigits2_bounds (Zpos mx) ltac:(lia)) as [Hx1 Hx2]. fold d1 in Hx1, Hx2.
  pose proof (Zdigits2_bounds (Zpos my) ltac:(lia)) as [Hy1 Hy2]. fold d2 in Hy1, Hy2.
  assert (Hd1 : 0 < d1) by (unfold d1; simpl; lia).
  assert (Hd2 : 0 < d2) by (unfold d2; simpl; lia).
  assert (Hdq : d1 - d2 + s <= Zdigits2 (a / Zpos my)).
  { pose proof (Zdigits2_nonneg (a / Zpos my)).
    destruct (Z_lt_le_dec (d1 - d2 + s - 1) 0) as [|Hk]; [lia|].
    assert (d1 - d2 + s - 1 < Zdigits2 (a / Zpos my)); [|lia].
    apply Zdigits2_ge; [assumption|].
    apply div_ge_iff; [assumption|].
    assert (E1 : 2 ^ (d1 - 1) * 2 ^ s = 2 ^ (d1 - d2 + s - 1) * 2 ^ d2)
      by (rewrite <- !Z.pow_add_r by lia; f_equal; lia).
    pose proof (pow2_pos (d1 - d2 + s - 1) Hk).
    unfold a. nia. }
  assert (He1 : e' <= fexp prec emax (Zdigits2 (a / Zpos my) + e')).
  { transitivity (fexp prec emax (d1 + ex - (d2 + ey))); [unfold e'; lia|].
    apply fexp_mono. unfold s in Hdq. lia. }
  rewrite (binary_round_aux_spec (xorb sx sy) a (Zpos my) e' Ha Hc He1).
  pose proof (positioned_fexp a (Zpos my) e' Ha Hc He1) as P1. cbv zeta in P1.
  set (e1 := fexp prec emax (Zdigits2 (a / Zpos my) + e')) in *.
  pose proof (pow2_pos (e1 - e') ltac:(lia)) as Hp1.
  pose proof (pow2_pos (ex + 1074) ltac:(lia)) as Hpx.
  pose proof (pow2_pos (ey + 1074) ltac:(lia)) as Hpy.
  pose proof (pow2_pos 1074 ltac:(lia)) as HpU.
  set (n := Zpos mx * 2 ^ (ex + 1074) * 2 ^ 1074).
  set (d := Zpos my * 2 ^ (ey + 1074)).
  assert (Hn : 0 <= n) by (unfold n; nia).
  assert (Hd : 0 < d) by (unfold d; nia).
  destruct (positioned_rat n d Hn Hd) as [HE P2].
  unfold round_rat. set (E := Z.max (Zdigits2 (n / d) - 53) 0) in *.
  pose proof (pow2_pos E HE) as HpE.
  destruct P1 as (Q1 & Q2 & Q3).
  apply round_at_ext; [assumption | nia | assumption | nia | repeat split; assumption | exact P2 |].
  replace (E - 1074 + 1074) with E by lia.
  assert (Hp : 2 ^ s * 2 ^ (ey + 1074) * 2 ^ E * 2 ^ (e1 + 1074)
               = 2 ^ (ex + 1074) * 2 ^ 1074 * 2 ^ (e1 - e') * 2 ^ E).
  { rewrite <- !Z.pow_add_r by lia. f_equal. unfold s. lia. }
  unfold a, n, d.
  transitivity (Zpos mx * Zpos my
                * (2 ^ s * 2 ^ (ey + 1074) * 2 ^ E * 2 ^ (e1 + 1074))); [ring|].
  rewrite Hp. ring.
Qed.

(** *** Rounding an integer mantissa: addition and subtraction *)

Lemma iter_xO_pow2 (m d : positive) :
  Zpos (Pos.iter xO m d) = Zpos m * 2 ^ Zpos d.
Proof.
  induction d as [|d IH] using Pos.peano_ind.
  - cbn [Pos.iter]. rewrite Pos2Z.inj_xO. change (2 ^ 1) with 2. ring.
  - rewrite Pos.iter_succ, Pos2Z.inj_xO, IH, Pos2Z.inj_succ, Z.pow_succ_r by lia.
    ring.
Qed.

Lemma shl_align_spec (mx : positive) (ex ex' : Z) :
  snd (shl_align mx ex ex') = Z.min ex ex' /\
  Zpos (fst (shl_align mx ex ex')) = Zpos mx * 2 ^ (ex - Z.min ex ex').
Proof.
  unfold shl_align. destruct (ex' - ex) as [|d|d] eqn:E; cbn [fst snd].
  - replace (Z.min ex ex') with ex by lia. rewrite Z.sub_diag. simpl. lia.
  - replace (Z.min ex ex') with ex by lia. rewrite Z.sub_diag. simpl. lia.
  - replace (Z.min ex ex') with ex' by lia.
    replace (ex - ex') with (Zpos d) by lia.
    split; [reflexivity | apply iter_xO_pow2].
Qed.

Lemma Zdigits2_mul_pow2 (m k : Z) :
  0 < m -> 0 <= k -> Zdigits2 (m * 2 ^ k) = Zdigits2 m + k.
Proof.
  intros Hm Hk. pose proof (Zdigits2_bounds m Hm) as [Hlo Hhi].
  assert (Hd : 0 < Zdigits2 m) by (destruct m; simpl in *; lia).
  pose proof (pow2_pos k Hk).
  apply Zdigits2_unique; [lia|].
  replace (Zdigits2 m + k - 1) with ((Zdigits2 m - 1) + k) by lia.
  rewrite !Z.pow_add_r by lia. split.
  - apply Z.mul_le_mono_nonneg_r; lia.
  - apply Z.mul_lt_mono_pos_r; lia.
Qed.

Lemma loc_of_1 (a : Z) : loc_of a 1 = loc_Exact.
Proof. unfold loc_of. rewrite Z.mod_1_r. reflexivity. Qed.

Lemma binary_round_spec (sx : bool) (mx : positive) (ex : Z) :
  -1074 <= ex ->
  binary_round prec emax sx mx ex = round_rat sx (Zpos mx * 2 ^ (ex + 1074)) 1.
Proof.
  intros Hex. unfold binary_round.
  change (Z.pos (digits2_pos mx)) with (Zdigits2 (Zpos mx)).
  set (E0 := fexp prec emax (Zdigits2 (Zpos mx) + ex)).
  destruct (shl_align_spec mx ex E0) as [Hez Hmz].
  destruct (shl_align mx ex E0) as [mz ez]. cbn [fst snd] in Hez, Hmz. subst ez.
  set (ez := Z.min ex E0) in *.
  assert (Hk : 0 <= ex - ez) by (unfold ez; lia).
  pose proof (pow2_pos (ex - ez) Hk) as Hpk.
  assert (Hdig : Zdigits2 (Zpos mz) + ez = Zdigits2 (Zpos mx) + ex).
  { rewrite Hmz, Zdigits2_mul_pow2 by lia. lia. }
  assert (He1 : ez <= fexp prec emax (Zdigits2 (Zpos mz / 1) + ez)).
  { rewrite Z.div_1_r, Hdig. fold E0. unfold ez. lia. }
  rewrite <- (Z.div_1_r (Zpos mz)) at 1. rewrite <- (loc_of_1 (Zpos mz)).
  rewrite (binary_round_aux_spec sx (Zpos mz) 1 ez ltac:(lia) ltac:(lia) He1).
  pose proof (positioned_fexp (Zpos mz) 1 ez ltac:(lia) ltac:(lia) He1) as P1.
  cbv zeta in P1. rewrite Z.div_1_r, Hdig in *. fold E0 in P1 |- *.
  assert (HE0 : -1074 <= E0) by (unfold E0; rewrite fexp_eq; lia).
  pose proof (pow2_pos (E0 - ez) ltac:(unfold ez; lia)) as Hp1.
  pose proof (pow2_pos (ex + 1074) ltac:(lia)) as Hpx.
  set (n := Zpos mx * 2 ^ (ex + 1074)).
  assert (Hn : 0 <= n) by (unfold n; nia).
  destruct (positioned_rat n 1 Hn ltac:(lia)) as [HE P2].
  unfold round_rat. set (E := Z.max (Zdigits2 (n / 1) - 53) 0) in *.
  pose proof (pow2_pos E HE) as HpE.
  apply round_at_ext; [lia | nia | assumption | nia | exact P1 | exact P2 |].
  replace (E - 1074 + 1074) with E by lia.
  assert (Hp : 2 ^ (ex - ez) * 2 ^ E * 2 ^ (E0 + 1074)
               = 2 ^ (ex + 1074) * 2 ^ (E0 - ez) * 2 ^ E).
  { rewrite <- !Z.pow_add_r by (unfold ez; lia). f_equal. lia. }
  rewrite Hmz. unfold n.
  transitivity (Zpos mx * (2 ^ (ex - ez) * 2 ^ E * 2 ^ (E0 + 1074))); [ring|].
  rewrite Hp. ring.
Qed.

Lemma binary_normalize_spec (m e : Z) :
  -1074 <= e ->
  binary_normalize prec emax m e false = round_int (m * 2 ^ (e + 1074)).
Proof.
  intros He. pose proof (pow2_pos (e + 1074) ltac:(lia)) as Hp.
  destruct m as [|p|p]; cbn [binary_normalize].
  - reflexivity.
  - rewrite binary_round_spec by assumption.
    destruct (Z.pos p * 2 ^ (e + 1074)) as [|q|q] eqn:E; try lia. reflexivity.
  - rewrite binary_round_spec by assumption.
    destruct (Z.neg p * 2 ^ (e + 1074)) as [|q|q] eqn:E; try lia.
    cbn [round_int]. f_equal. lia.
Qed.

Lemma ival_aligned (s : bool) (m : positive) (e ez : Z) :
  -1074 <= ez <= e ->
  cond_Zopp s (Zpos (fst (shl_align m e ez))) * 2 ^ (ez + 1074)
  = ival (S754_finite s m e).
Proof.
  intros H. destruct (shl_align_spec m e ez) as [_ Hm]. rewrite Hm.
  replace (Z.min e ez) with ez by lia. cbn [ival].
  replace (2 ^ (e + 1074)) with (2 ^ (e - ez) * 2 ^ (ez + 1074))
    by (rewrite <- Z.pow_add_r by lia; f_equal; lia).
  destruct s; cbn [cond_Zopp]; ring.
Qed.

Lemma fsub_finite (sx sy : bool) (mx my : positive) (ex ey : Z) :
  -1074 <= ex -> -1074 <= ey ->
  fsub (S754_finite sx mx ex) (S754_finite sy my ey)
  = round_int (ival (S754_finite sx mx ex) - ival (S754_finite sy my ey)).
Proof.
  intros Hex Hey. unfold fsub. cbn [SFsub].
  rewrite binary_normalize_spec by lia.
  rewrite Z.mul_sub_distr_r, !ival_aligned by lia. reflexivity.
Qed.

Lemma fadd_finite (sx sy : bool) (mx my : positive) (ex ey : Z) :
  -1074 <= ex -> -1074 <= ey ->
  fadd (S754_finite sx mx ex) (S754_finite sy my ey)
  = round_int (ival (S754_finite sx mx ex) + ival (S754_finite sy my ey)).
Proof.
  intros Hex Hey. unfold fadd. cbn [SFadd].
  rewrite binary_normalize_spec by lia.
  rewrite Z.mul_add_distr_r, !ival_aligned by lia. reflexivity.
Qed.

(** *** The literals and constants of the source *)

Lemma lit_1_0_eq : lit_1_0 = S754_finite false 4503599627370496 (-52).
Proof. vm_compute. reflexivity. Qed.

Lemma float_of_int_1 : float_of_int 1 = lit_1_0.
Proof. vm_compute. reflexivity. Qed.

Lemma float_of_int_255 :
  float_of_int 255 = S754_finite false 8972014882652160 (-45).
Proof. vm_compute. reflexivity. Qed.

Lemma ival_lit_1_0 : ival lit_1_0 = 2 ^ 1074.
Proof. vm_compute. reflexivity. Qed.

Lemma ival_255 : ival (float_of_int 255) = 255 * 2 ^ 1074.
Proof. vm_compute. reflexivity. Qed.

Lemma valid_lit_1_0 : valid lit_1_0.
Proof. vm_compute. reflexivity. Qed.

Lemma valid_255 : valid (float_of_int 255).
Proof. vm_compute. reflexivity. Qed.

(** *** Floats between 0 and 1 *)

Lemma unit_float_in_unit (x : float) : unit_float x -> in_unit x = true.
Proof.
  intros (V & N & H). unfold in_unit.
  rewrite (fle_ival lit_0_0 x) by (try assumption; reflexivity || exact I).
  rewrite (fle_ival x lit_1_0) by (try assumption; apply valid_lit_1_0 || exact I).
  rewrite ival_lit_1_0. pose proof (ival_nonneg x V N).
  apply andb_true_intro. split; apply Z.leb_le; [exact H0 | exact H].
Qed.

Lemma unit_float_zero : unit_float (S754_zero false).
Proof. repeat split. cbn [ival]. apply Z.lt_le_incl, pow2_pos. lia. Qed.

(** *** [int / int] on a sum of bytes *)

Lemma int_truediv_bounded (s n : Z) (b : float) :
  0 <= s -> 0 < n -> valid b -> nonneg_finite b ->
  s * 2 ^ 1074 <= n * ival b ->
  exists q, int_truediv s n = Ok q /\ q = fdiv (raw s) (raw n) /\
            valid q /\ nonneg_finite q /\ ival q <= ival b.
Proof.
  intros Hs Hn Vb Nb Hle. unfold int_truediv.
  destruct (Z.eqb_spec n 0) as [|_]; [lia|].
  pose proof (ival_nonneg b Vb Nb) as Hb0.
  destruct n as [|pn|pn]; try lia.
  destruct s as [|ps|ps]; try lia.
  - exists (S754_zero false). repeat split; solve [assumption | reflexivity].
  - cbn [raw]. rewrite fdiv_finite by lia. cbn [xorb].
    change (2 ^ (0 + 1074)) with (2 ^ 1074).
    pose proof (pow2_pos 1074 ltac:(lia)) as HU. set (U := 2 ^ 1074) in *.
    assert (H0 : 0 <= Zpos ps * U * U) by nia.
    assert (H1 : 0 < Zpos pn * U) by nia.
    assert (H2 : Zpos ps * U * U <= Zpos pn * U * ival b).
    { replace (Zpos ps * U * U) with (Zpos ps * U * U) by ring.
      replace (Zpos pn * U * ival b) with (Zpos pn * ival b * U) by ring.
      apply Z.mul_le_mono_nonneg_r; lia. }
    destruct (round_rat_le _ _ b H0 H1 Vb Nb H2) as [Hfin Hval].
    pose proof (round_rat_valid false _ _ H0 H1) as Hv.
    set (r := round_rat false (Zpos ps * U * U) (Zpos pn * U)) in *.
    clearbody r. exists r.
    split; [|repeat split; solve [assumption | reflexivity]].
    destruct r as [| [|] | |]; try reflexivity; contradiction.
Qed.

Lemma int_truediv_exact (k n : Z) (b : float) :
  0 < n -> valid b -> nonneg_finite b -> ival b = k * 2 ^ 1074 ->
  int_truediv (k * n) n = Ok b.
Proof.
  intros Hn Vb Nb Hb.
  pose proof (ival_nonneg b Vb Nb) as Hb0.
  pose proof (pow2_pos 1074 ltac:(lia)) as HU.
  assert (Hk : 0 <= k) by nia.
  destruct (int_truediv_bounded (k * n) n b ltac:(nia) Hn Vb Nb ltac:(nia))
    as (q & Hq & Eq & Vq & Nq & Hle).
  rewrite Hq. f_equal.
  destruct n as [|pn|pn]; try lia.
  destruct (k * Zpos pn) as [|ps|ps] eqn:E; try lia.
  - assert (k = 0) by nia. subst k. cbn in Eq. subst q.
    apply ival_inj; try assumption. cbn [ival]. lia.
  - cbn [raw] in Eq. rewrite fdiv_finite in Eq by lia. cbn [xorb] in Eq.
    change (2 ^ (0 + 1074)) with (2 ^ 1074) in Eq.
    replace (Zpos ps * 2 ^ 1074 * 2 ^ 1074) with ((Zpos pn * 2 ^ 1074) * ival b) in Eq
      by (rewrite Hb, <- E; ring).
    rewrite round_rat_exact in Eq by (try assumption; nia). exact Eq.
Qed.

(** *** [x / 255] and [1 - x] *)

Lemma fdiv_255_unit (x : float) :
  valid x -> nonneg_finite x -> ival x <= 255 * 2 ^ 1074 ->
  unit_float (fdiv x (float_of_int 255)).
Proof.
  intros V N H. rewrite float_of_int_255.
  destruct x as [[|]| | |[|] m e]; try contradiction.
  - apply unit_float_zero.
  - destruct (valid_finite_inv _ _ _ V) as (He & _).
    rewrite fdiv_finite by lia. cbn [xorb].
    pose proof (pow2_pos 1074 ltac:(lia)) as HU.
    pose proof (pow2_pos (e + 1074) ltac:(lia)) as HP.
    cbn [ival] in H. rewrite Z.mul_1_l in H.
    assert (E255 : 8972014882652160 * 2 ^ (-45 + 1074) = 255 * 2 ^ 1074)
      by (vm_compute; reflexivity).
    rewrite E255.
    set (v := Zpos m * 2 ^ (e + 1074)) in *. set (U := 2 ^ 1074) in *.
    assert (H0 : 0 <= v * U) by nia.
    assert (H1 : 0 < 255 * U) by lia.
    assert (H2 : v * U <= 255 * U * ival lit_1_0)
      by (rewrite ival_lit_1_0; fold U; nia).
    destruct (round_rat_le _ _ lit_1_0 H0 H1 valid_lit_1_0 I H2) as [Hfin Hval].
    rewrite ival_lit_1_0 in Hval.
    split; [apply round_rat_valid; assumption|]. split; assumption.
Qed.

Lemma round_int_unit (v : Z) : 0 <= v <= 2 ^ 1074 -> unit_float (round_int v).
Proof.
  intros Hv. destruct v as [|p|p]; try lia; cbn [round_int].
  - apply unit_float_zero.
  - assert (H2 : Zpos p <= 1 * ival lit_1_0) by (rewrite ival_lit_1_0; lia).
    destruct (round_rat_le (Zpos p) 1 lit_1_0 ltac:(lia) ltac:(lia)
                valid_lit_1_0 I H2) as [Hfin Hval].
    rewrite ival_lit_1_0 in Hval.
    split; [apply round_rat_valid; lia|]. split; assumption.
Qed.

Lemma fsub_one_eq (h : float) :
  unit_float h -> fsub (float_of_int 1) h = round_int (2 ^ 1074 - ival h).
Proof.
  intros (V & N & H). rewrite float_of_int_1, lit_1_0_eq.
  destruct h as [[|]| | |[|] m e]; try contradiction.
  - vm_compute. reflexivity.
  - destruct (valid_finite_inv _ _ _ V) as (He & _).
    rewrite fsub_finite by lia. f_equal.
Qed.

Lemma fsub_one_unit (h : float) :
  unit_float h -> unit_float (fsub (float_of_int 1) h).
Proof.
  intros Hh. rewrite (fsub_one_eq h Hh). destruct Hh as (V & N & H).
  pose proof (ival_nonneg h V N). apply round_int_unit. lia.
Qed.

(** *** The rounding error, and sums that round to 1.0 *)

Lemma round_half_even_err (a c : Z) :
  0 < c -> 2 * Z.abs (round_half_even a c * c - a) <= c.
Proof.
  intros Hc. unfold round_half_even.
  pose proof (Z.mod_pos_bound a c Hc). pose proof (Z.div_mod a c ltac:(lia)).
  destruct (Z.compare_spec (2 * (a mod c)) c); [destruct (Z.even (a / c))| |]; nia.
Qed.

Lemma round_half_even_down (a c q : Z) :
  0 < c -> 0 <= a - q * c -> 2 * (a - q * c) < c -> round_half_even a c = q.
Proof.
  intros Hc H0 H1.
  assert (Eq : a / c = q) by (symmetry; apply (Z.div_unique a c q (a - q * c)); lia).
  assert (Er : a mod c = a - q * c)
    by (symmetry; apply (Z.mod_unique a c q (a - q * c)); lia).
  unfold round_half_even. rewrite Eq, Er.
  destruct (Z.compare_spec (2 * (a - q * c)) c); lia.
Qed.

Lemma round_half_even_up (a c q : Z) :
  0 < c -> a - q * c < c -> c <= 2 * (a - q * c) -> Z.odd q = true ->
  round_half_even a c = q + 1.
Proof.
  intros Hc H0 H1 Hodd.
  assert (Eq : a / c = q) by (symmetry; apply (Z.div_unique a c q (a - q * c)); lia).
  assert (Er : a mod c = a - q * c)
    by (symmetry; apply (Z.mod_unique a c q (a - q * c)); lia).
  unfold round_half_even. rewrite Eq, Er.
  rewrite <- Z.negb_odd, Hodd.
  destruct (Z.compare_spec (2 * (a - q * c)) c); cbn [negb]; lia.
Qed.

Lemma round_int_near_one (v : Z) :
  2 ^ 1074 - 2 ^ 1020 <= v <= 2 ^ 1074 + 2 ^ 1020 -> round_int v = lit_1_0.
Proof.
  intros Hv. rewrite lit_1_0_eq.
  destruct v as [|p|p]; try lia. cbn [round_int]. unfold round_rat.
  rewrite Z.div_1_r, Z.mul_1_l.
  destruct (Z_le_gt_dec (2 ^ 1074) (Zpos p)) as [Hge|Hlt].
  - rewrite (Zdigits2_unique (Zpos p) 1075) by lia.
    change (Z.max (1075 - 53) 0) with 1022. unfold round_at.
    rewrite (round_half_even_down (Zpos p) (2 ^ 1022) (2 ^ 52)) by lia.
    reflexivity.
  - rewrite (Zdigits2_unique (Zpos p) 1074) by lia.
    change (Z.max (1074 - 53) 0) with 1021. unfold round_at.
    rewrite (round_half_even_up (Zpos p) (2 ^ 1021) (2 ^ 53 - 1))
      by (try reflexivity; lia).
    reflexivity.
Qed.

(** The error of rounding an integer below [2^1074]. *)
Lemma round_int_err (y : Z) :
  0 < y < 2 ^ 1074 ->
  valid (round_int y) /\ nonneg_finite (round_int y) /\
  0 < ival (round_int y) /\
  Z.abs (ival (round_int y) - y) <= 2 ^ 1020.
Proof.
  intros Hy. destruct y as [|p|p]; try lia. cbn [round_int].
  pose proof (round_rat_valid false (Zpos p) 1 ltac:(lia) ltac:(lia)) as V.
  assert (H2 : Zpos p <= 1 * ival lit_1_0) by (rewrite ival_lit_1_0; lia).
  destruct (round_rat_le (Zpos p) 1 lit_1_0 ltac:(lia) ltac:(lia)
              valid_lit_1_0 I H2) as [Hfin _].
  split; [assumption|]. split; [assumption|].
  destruct (positioned_rat (Zpos p) 1 ltac:(lia) ltac:(lia)) as [HE HP].
  unfold round_rat in *. rewrite Z.div_1_r, Z.mul_1_l in *.
  set (E := Z.max (Zdigits2 (Zpos p) - 53) 0) in *.
  pose proof (pow2_pos E HE) as HpE.
  pose proof (round_at_no_overflow (Zpos p) (2 ^ E) (E - 1074)
                ltac:(lia) HpE HP Hfin) as Hov.
  destruct (round_at_value (Zpos p) (2 ^ E) (E - 1074)
              ltac:(lia) HpE HP Hov) as [_ Hval].
  replace (E - 1074 + 1074) with E in Hval by lia. rewrite Hval.
  pose proof (round_half_even_err (Zpos p) (2 ^ E) HpE) as Herr.
  assert (HdE : Zdigits2 (Zpos p) <= 1074) by (apply Zdigits2_le; lia).
  split.
  - assert (1 <= round_half_even (Zpos p) (2 ^ E)); [|nia].
    destruct (Z.eq_dec E 0) as [E0|E0].
    + rewrite E0. change (2 ^ 0) with 1.
      apply round_half_even_ge; lia.
    + destruct (positioned_round_range (Zpos p) (2 ^ E) (E - 1074)
                  ltac:(lia) HpE HP) as [_ Hn].
      specialize (Hn ltac:(lia)). lia.
  - destruct (Z.eq_dec E 0) as [E0|E0].
    + rewrite E0 in *. change (2 ^ 0) with 1 in *. lia.
    + assert (2 ^ E <= 2 ^ 1021) by (apply pow2_le; lia).
      change (2 ^ 1021) with (2 * 2 ^ 1020) in *. lia.
Qed.

(** [x + (1 - x)] evaluates to [1.0] for every float [x] between 0 and 1. *)
Theorem fadd_fsub_one (h : float) :
  unit_float h -> fadd h (fsub (float_of_int 1) h) = lit_1_0.
Proof.
  intros Hh. rewrite (fsub_one_eq h Hh). destruct Hh as (V & N & H).
  destruct h as [[|]| | |[|] m e]; try contradiction.
  - cbn [ival]. rewrite Z.sub_0_r.
    rewrite (round_int_near_one (2 ^ 1074)) by lia.
    rewrite lit_1_0_eq. reflexivity.
  - destruct (valid_finite_inv _ _ _ V) as (He & _).
    pose proof (pow2_pos (e + 1074) ltac:(lia)) as HP.
    set (h := S754_finite false m e) in *.
    assert (Hpos : 0 < ival h) by (unfold h; cbn [ival]; nia).
    destruct (Z.eq_dec (ival h) (2 ^ 1074)) as [E1|E1].
    + rewrite E1, Z.sub_diag. cbn [round_int]. unfold h. cbn [fadd SFadd].
      fold h.
      apply ival_inj;
        [exact V | apply valid_lit_1_0 | exact N | exact I
        | rewrite ival_lit_1_0; exact E1].
    + destruct (round_int_err (2 ^ 1074 - ival h) ltac:(lia))
        as (Vs & Ns & Hs0 & Herr).
      set (s := round_int (2 ^ 1074 - ival h)) in *.
      destruct s as [[|]| | |[|] ms es] eqn:Es; try contradiction;
        [cbn [ival] in Hs0; lia|].
      destruct (valid_finite_inv _ _ _ Vs) as (Hes & _).
      unfold h. rewrite fadd_finite by lia. fold h.
      apply round_int_near_one. lia.
Qed.

(** *** [round(x, 2)] *)

Lemma strtod_unit (q : Z) : 0 <= q <= 100 -> unit_float (strtod false q 2).
Proof.
  intros Hq. unfold strtod. destruct q as [|p|p]; try lia.
  - apply unit_float_zero.
  - change (raw (10 ^ 2)) with (S754_finite false 100 0).
    rewrite fdiv_finite by lia. cbn [xorb].
    change (2 ^ (0 + 1074)) with (2 ^ 1074).
    pose proof (pow2_pos 1074 ltac:(lia)) as HU. set (U := 2 ^ 1074) in *.
    assert (H0 : 0 <= Zpos p * U * U) by nia.
    assert (H1 : 0 < 100 * U) by lia.
    assert (H2 : Zpos p * U * U <= 100 * U * ival lit_1_0)
      by (rewrite ival_lit_1_0; fold U; nia).
    destruct (round_rat_le _ _ lit_1_0 H0 H1 valid_lit_1_0 I H2) as [Hfin Hval].
    rewrite ival_lit_1_0 in Hval.
    split; [apply round_rat_valid; assumption|]. split; assumption.
Qed.

Lemma py_round_unit (x : float) : unit_float x -> unit_float (py_round x 2).
Proof.
  intros (V & N & H).
  destruct x as [[|]| | |[|] m e]; try contradiction.
  - apply unit_float_zero.
  - destruct (valid_finite_inv _ _ _ V) as (He & _).
    cbn [py_round]. apply strtod_unit.
    cbn [ival] in H. rewrite Z.mul_1_l in H.
    pose proof (pow2_pos (e + 1074) ltac:(lia)) as HP.
    pose proof (pow2_pos (Z.max (- e) 0) ltac:(lia)) as Hden.
    pose proof (pow2_pos (Z.max e 0) ltac:(lia)) as Hnum.
    change (10 ^ 2) with 100.
    split.
    + apply round_half_even_nonneg; [nia | assumption].
    + apply round_half_even_le; [assumption|].
      assert (Hsplit : 2 ^ Z.max e 0 * 2 ^ 1074 = 2 ^ Z.max (- e) 0 * 2 ^ (e + 1074))
        by (rewrite <- !Z.pow_add_r by lia; f_equal; lia).
      assert (Zpos m * 2 ^ Z.max e 0 <= 2 ^ Z.max (- e) 0); [|nia].
      apply (Z.mul_le_mono_pos_r _ _ (2 ^ (e + 1074)) HP).
      pose proof (pow2_pos 1074 ltac:(lia)) as HU.
      destruct (Z_le_gt_dec e 0) as [Hle|Hgt].
      * replace (Z.max e 0) with 0 in * by lia. change (2 ^ 0) with 1 in *. lia.
      * replace (Z.max (- e) 0) with 0 in * by lia.
        replace (Z.max e 0) with e in * by lia. change (2 ^ 0) with 1 in *.
        pose proof (pow2_pos e ltac:(lia)).
        assert (2 ^ (e + 1074) = 2 ^ e * 2 ^ 1074) by (rewrite Z.pow_add_r; lia).
        nia.
Qed.

End Float64Facts.

Import Float64Facts.

(* ================================================================= *)
(** * Binary64 rounding: order and exact values *)

Module Float64Order.

(** ** Rounding is monotone and depends on the value only *)

Lemma round_half_even_mono (a b c : Z) :
  0 < c -> a <= b -> round_half_even a c <= round_half_even b c.
Proof.
  intros Hc Hab.
  pose proof (round_half_even_bounds a c Hc) as Ba.
  pose proof (round_half_even_bounds b c Hc) as Bb.
  pose proof (Z.mod_pos_bound a c Hc). pose proof (Z.div_mod a c ltac:(lia)).
  pose proof (Z.mod_pos_bound b c Hc). pose proof (Z.div_mod b c ltac:(lia)).
  assert (Hq : a / c <= b / c) by (apply Z.div_le_mono; lia).
  destruct (Z.eq_dec (a / c) (b / c)) as [E|E]; [|lia].
  assert (Hr : a mod c <= b mod c) by nia.
  unfold round_half_even in *. rewrite <- E in *.
  destruct (Z.compare_spec (2 * (a mod c)) c);
    destruct (Z.compare_spec (2 * (b mod c)) c);
    destruct (Z.even (a / c)); lia.
Qed.

Lemma round_half_even_cross_mono (a1 c1 a2 c2 : Z) :
  0 < c1 -> 0 < c2 -> a1 * c2 <= a2 * c1 ->
  round_half_even a1 c1 <= round_half_even a2 c2.
Proof.
  intros H1 H2 H.
  rewrite <- (round_half_even_scale a1 c1 c2 H1 H2).
  rewrite <- (round_half_even_scale a2 c2 c1 H2 H1).
  rewrite (Z.mul_comm c2 c1). apply round_half_even_mono; nia.
Qed.

Lemma div_cross_mono (n1 d1 n2 d2 : Z) :
  0 < d1 -> 0 < d2 -> n1 * d2 <= n2 * d1 -> n1 / d1 <= n2 / d2.
Proof.
  intros H1 H2 H. apply div_ge_iff; [assumption|].
  pose proof (Z.mod_pos_bound n1 d1 H1). pose proof (Z.div_mod n1 d1 ltac:(lia)).
  assert ((n1 / d1) * d1 <= n1) by nia.
  apply (Z.mul_le_mono_pos_r _ _ d1 H1). nia.
Qed.

Lemma Zdigits2_mono (a b : Z) : 0 <= a <= b -> Zdigits2 a <= Zdigits2 b.
Proof.
  intros [Ha Hab]. pose proof (Zdigits2_nonneg b).
  destruct (Z.eq_dec b 0) as [->|]; [replace a with 0 by lia; lia|].
  pose proof (Zdigits2_bounds b ltac:(lia)).
  apply Zdigits2_le; lia.
Qed.

(** The nearest double is the same for equal rationals. *)
Lemma round_rat_ext (sx : bool) (n1 d1 n2 d2 : Z) :
  0 <= n1 -> 0 < d1 -> 0 <= n2 -> 0 < d2 -> n1 * d2 = n2 * d1 ->
  round_rat sx n1 d1 = round_rat sx n2 d2.
Proof.
  intros Hn1 Hd1 Hn2 Hd2 E.
  destruct (positioned_rat n1 d1 Hn1 Hd1) as [HE1 P1].
  destruct (positioned_rat n2 d2 Hn2 Hd2) as [HE2 P2].
  unfold round_rat.
  set (E1 := Z.max (Zdigits2 (n1 / d1) - 53) 0) in *.
  set (E2 := Z.max (Zdigits2 (n2 / d2) - 53) 0) in *.
  pose proof (pow2_pos E1 HE1). pose proof (pow2_pos E2 HE2).
  apply round_at_ext; [lia | nia | lia | nia | exact P1 | exact P2 |].
  replace (E1 - 1074 + 1074) with E1 by lia.
  replace (E2 - 1074 + 1074) with E2 by lia.
  transitivity (n1 * d2 * (2 ^ E1 * 2 ^ E2)); [ring|]. rewrite E. ring.
Qed.

(** The nearest double grows with the rational. *)
Lemma round_rat_mono (n1 d1 n2 d2 : Z) :
  0 <= n1 -> 0 < d1 -> 0 <= n2 -> 0 < d2 -> n1 * d2 <= n2 * d1 ->
  nonneg_finite (round_rat false n2 d2) ->
  nonneg_finite (round_rat false n1 d1) /\
  ival (round_rat false n1 d1) <= ival (round_rat false n2 d2).
Proof.
  intros Hn1 Hd1 Hn2 Hd2 Hle Hfin2.
  destruct (positioned_rat n1 d1 Hn1 Hd1) as [HE1 P1].
  destruct (positioned_rat n2 d2 Hn2 Hd2) as [HE2 P2].
  unfold round_rat in *.
  assert (Hq : 0 <= n1 / d1 <= n2 / d2)
    by (split; [apply Z.div_pos; lia | apply div_cross_mono; assumption]).
  pose proof (Zdigits2_mono _ _ Hq) as Hdig.
  set (E1 := Z.max (Zdigits2 (n1 / d1) - 53) 0) in *.
  set (E2 := Z.max (Zdigits2 (n2 / d2) - 53) 0) in *.
  assert (HE : E1 <= E2) by (unfold E1, E2; lia).
  pose proof (pow2_pos E1 HE1) as Hp1. pose proof (pow2_pos E2 HE2) as Hp2.
  assert (Hc1 : 0 < d1 * 2 ^ E1) by nia.
  assert (Hc2 : 0 < d2 * 2 ^ E2) by nia.
  pose proof (round_at_no_overflow n2 (d2 * 2 ^ E2) (E2 - 1074) Hn2 Hc2 P2 Hfin2)
    as Hov2.
  destruct (round_at_value n2 (d2 * 2 ^ E2) (E2 - 1074) Hn2 Hc2 P2 Hov2)
    as [_ Hv2].
  destruct (positioned_round_range n1 (d1 * 2 ^ E1) (E1 - 1074) Hn1 Hc1 P1)
    as [[Hm1 HM1] _].
  destruct (positioned_round_range n2 (d2 * 2 ^ E2) (E2 - 1074) Hn2 Hc2 P2)
    as [[Hm2 HM2] Hlo2].
  set (m1 := round_half_even n1 (d1 * 2 ^ E1)) in *.
  set (m2 := round_half_even n2 (d2 * 2 ^ E2)) in *.
  assert (Hsame : E1 = E2 -> m1 <= m2).
  { intros EE. unfold m1, m2. rewrite EE.
    apply round_half_even_cross_mono; [nia | nia |]. nia. }
  assert (Hov1 : (if m1 <? 2 ^ 53 then E1 - 1074 else E1 - 1074 + 1) <= 971).
  { destruct (Z.ltb_spec m1 (2 ^ 53)); destruct (Z.ltb_spec m2 (2 ^ 53));
      destruct (Z.eq_dec E1 E2) as [EE|EE];
      try specialize (Hsame EE); lia. }
  destruct (round_at_value n1 (d1 * 2 ^ E1) (E1 - 1074) Hn1 Hc1 P1 Hov1)
    as [Hfin1 Hv1].
  split; [exact Hfin1|]. rewrite Hv1, Hv2.
  replace (E1 - 1074 + 1074) with E1 by lia.
  replace (E2 - 1074 + 1074) with E2 by lia.
  destruct (Z.eq_dec E1 E2) as [EE|EE].
  - rewrite <- EE. apply Z.mul_le_mono_nonneg_r; [lia | apply Hsame, EE].
  - specialize (Hlo2 ltac:(lia)).
    assert (E : 2 ^ E2 = 2 ^ E1 * 2 ^ (E2 - E1))
      by (rewrite <- Z.pow_add_r by lia; f_equal; lia).
    assert (2 <= 2 ^ (E2 - E1)) by (apply (pow2_le 1 (E2 - E1)); lia).
    rewrite E.
    assert (m1 * 2 ^ E1 <= 2 ^ 53 * 2 ^ E1) by (apply Z.mul_le_mono_nonneg_r; lia).
    assert (2 ^ 52 * (2 ^ E1 * 2) <= m2 * (2 ^ E1 * 2 ^ (E2 - E1)))
      by (apply Z.mul_le_mono_nonneg; nia).
    change (2 ^ 53) with (2 ^ 52 * 2) in *. nia.
Qed.

End Float64Order.

Import Float64Order.

Module Float64Ops.

(** ** The operations of the scorer as roundings of exact values *)

Lemma round_rat_zero (sx : bool) (d : Z) : 0 < d -> round_rat sx 0 d = S754_zero sx.
Proof.
  intros Hd. unfold round_rat. rewrite Z.div_0_l by lia.
  change (Z.max (Zdigits2 0 - 53) 0) with 0. change (2 ^ 0) with 1.
  unfold round_at, round_half_even.
  rewrite Z.div_0_l, Z.mod_0_l by lia.
  replace (2 * 0 ?= d * 1) with Lt by (symmetry; apply Z.compare_lt_iff; lia).
  reflexivity.
Qed.

Lemma round_int_nonneg (v : Z) : 0 <= v -> round_int v = round_rat false v 1.
Proof.
  intros Hv. destruct v as [|p|p]; try lia; cbn [round_int]; [|reflexivity].
  symmetry. apply round_rat_zero. lia.
Qed.

(** [a / b] on integers: the double nearest to the rational. *)
Lemma fdiv_raw (s n : Z) :
  0 <= s -> 0 < n ->
  fdiv (raw s) (raw n) = round_rat false (s * 2 ^ 1074 * 2 ^ 1074) (n * 2 ^ 1074).
Proof.
  intros Hs Hn. pose proof (pow2_pos 1074 ltac:(lia)) as HU.
  destruct n as [|pn|pn]; try lia. destruct s as [|ps|ps]; try lia.
  - cbn [raw]. rewrite !Z.mul_0_l, round_rat_zero by lia. reflexivity.
  - cbn [raw]. rewrite fdiv_finite by lia. reflexivity.
Qed.

Lemma int_truediv_raw (s n : Z) :
  0 <= s -> 0 < n ->
  int_truediv s n =
    match round_rat false (s * 2 ^ 1074 * 2 ^ 1074) (n * 2 ^ 1074) with
    | S754_infinity _ => Raise OverflowError
    | q => Ok q
    end.
Proof.
  intros Hs Hn. unfold int_truediv.
  destruct (Z.eqb_spec n 0); [lia|]. rewrite (fdiv_raw s n Hs Hn). reflexivity.
Qed.

(** [int / int] depends on the quotient only, not on the two integers. *)
Lemma int_truediv_ext (s1 n1 s2 n2 : Z) :
  0 <= s1 -> 0 < n1 -> 0 <= s2 -> 0 < n2 -> s1 * n2 = s2 * n1 ->
  int_truediv s1 n1 = int_truediv s2 n2.
Proof.
  intros Hs1 Hn1 Hs2 Hn2 E. pose proof (pow2_pos 1074 ltac:(lia)) as HU.
  rewrite (int_truediv_raw s1 n1), (int_truediv_raw s2 n2) by assumption.
  set (U := 2 ^ 1074) in *.
  rewrite (round_rat_ext false (s1 * U * U) (n1 * U) (s2 * U * U) (n2 * U));
    [reflexivity | nia | nia | nia | nia |].
  transitivity (s1 * n2 * (U * U * U)); [ring|]. rewrite E. ring.
Qed.

Lemma int_truediv_mono (s1 n1 s2 n2 : Z) (q2 : float) :
  0 <= s1 -> 0 < n1 -> 0 <= s2 -> 0 < n2 -> s1 * n2 <= s2 * n1 ->
  int_truediv s2 n2 = Ok q2 -> nonneg_finite q2 ->
  exists q1, int_truediv s1 n1 = Ok q1 /\ nonneg_finite q1 /\ valid q1 /\
             ival q1 <= ival q2.
Proof.
  intros Hs1 Hn1 Hs2 Hn2 Hle H2 Hfin2.
  pose proof (pow2_pos 1074 ltac:(lia)) as HU.
  rewrite (int_truediv_raw s2 n2) in H2 by assumption.
  rewrite (int_truediv_raw s1 n1) by assumption.
  set (U := 2 ^ 1074) in *.
  assert (Hq2 : round_rat false (s2 * U * U) (n2 * U) = q2).
  { destruct (round_rat false (s2 * U * U) (n2 * U)); try discriminate H2;
      injection H2 as <-; reflexivity. }
  rewrite <- Hq2 in Hfin2 |- *.
  assert (Hcross : s1 * U * U * (n2 * U) <= s2 * U * U * (n1 * U)).
  { apply Z.le_trans with (s1 * n2 * (U * U * U)); [lia|].
    apply Z.le_trans with (s2 * n1 * (U * U * U)); [|lia].
    apply Z.mul_le_mono_nonneg_r; nia. }
  destruct (round_rat_mono (s1 * U * U) (n1 * U) (s2 * U * U) (n2 * U)
              ltac:(nia) ltac:(nia) ltac:(nia) ltac:(nia) Hcross Hfin2)
    as [Hfin1 Hval].
  pose proof (round_rat_valid false (s1 * U * U) (n1 * U) ltac:(nia) ltac:(nia)) as V1.
  set (q1 := round_rat false (s1 * U * U) (n1 * U)) in *. clearbody q1.
  exists q1. split; [|repeat split; assumption].
  destruct q1 as [| [|] | |]; try reflexivity; contradiction.
Qed.

(** [x / 255] *)
Lemma fdiv_255_eq (x : float) :
  valid x -> nonneg_finite x ->
  fdiv x (float_of_int 255) = round_rat false (ival x * 2 ^ 1074) (255 * 2 ^ 1074).
Proof.
  intros V N. rewrite float_of_int_255.
  pose proof (pow2_pos 1074 ltac:(lia)) as HU.
  destruct x as [[|]| | |[|] m e]; try contradiction.
  - cbn [ival]. rewrite Z.mul_0_l, round_rat_zero by lia. reflexivity.
  - destruct (valid_finite_inv _ _ _ V) as (He & _).
    rewrite fdiv_finite by lia. cbn [xorb ival]. rewrite Z.mul_1_l.
    f_equal.
Qed.

Lemma fdiv_255_mono (x y : float) :
  valid x -> nonneg_finite x -> valid y -> nonneg_finite y ->
  ival x <= ival y -> ival y <= 255 * 2 ^ 1074 ->
  ival (fdiv x (float_of_int 255)) <= ival (fdiv y (float_of_int 255)).
Proof.
  intros Vx Nx Vy Ny Hxy Hy.
  pose proof (fdiv_255_unit y Vy Ny Hy) as (_ & Nh & _).
  rewrite (fdiv_255_eq x Vx Nx), (fdiv_255_eq y Vy Ny) in *.
  pose proof (pow2_pos 1074 ltac:(lia)) as HU.
  pose proof (ival_nonneg x Vx Nx). pose proof (ival_nonneg y Vy Ny).
  set (U := 2 ^ 1074) in *.
  assert (Hcross : ival x * U * (255 * U) <= ival y * U * (255 * U))
    by (apply Z.mul_le_mono_nonneg_r; nia).
  exact (proj2 (round_rat_mono (ival x * U) (255 * U) (ival y * U) (255 * U)
                  ltac:(nia) ltac:(lia) ltac:(nia) ltac:(lia) Hcross Nh)).
Qed.

(** [1 - x] *)
Lemma fsub_one_antitone (x y : float) :
  unit_float x -> unit_float y -> ival x <= ival y ->
  ival (fsub (float_of_int 1) y) <= ival (fsub (float_of_int 1) x).
Proof.
  intros Hx Hy Hxy.
  pose proof (fsub_one_unit x Hx) as (_ & Ns & _).
  rewrite (fsub_one_eq x Hx), (fsub_one_eq y Hy) in *.
  destruct Hx as (Vx & Nx & Bx). destruct Hy as (Vy & Ny & By).
  pose proof (ival_nonneg x Vx Nx). pose proof (ival_nonneg y Vy Ny).
  rewrite (round_int_nonneg (2 ^ 1074 - ival x)) in * by lia.
  rewrite (round_int_nonneg (2 ^ 1074 - ival y)) by lia.
  exact (proj2 (round_rat_mono (2 ^ 1074 - ival y) 1 (2 ^ 1074 - ival x) 1
                  ltac:(lia) ltac:(lia) ltac:(lia) ltac:(lia) ltac:(lia) Ns)).
Qed.


(** [round(x, 2)] *)
Lemma hundredth_eq (k : Z) :
  0 <= k ->
  hundredth k = round_rat false (k * 2 ^ 1074 * 2 ^ 1074) (100 * 2 ^ 1074).
Proof.
  intros Hk. rewrite <- (fdiv_raw k 100) by lia.
  unfold hundredth, strtod. destruct k as [|p|p]; try lia; reflexivity.
Qed.

Lemma hundredth_unit (k : Z) : 0 <= k <= 100 -> unit_float (hundredth k).
Proof. apply strtod_unit. Qed.

Lemma hundredth_mono (j k : Z) :
  0 <= j <= k -> k <= 100 -> ival (hundredth j) <= ival (hundredth k).
Proof.
  intros Hj Hk. pose proof (hundredth_unit k ltac:(lia)) as (_ & Nk & _).
  rewrite (hundredth_eq j), (hundredth_eq k) in * by lia.
  pose proof (pow2_pos 1074 ltac:(lia)) as HU. set (U := 2 ^ 1074) in *.
  assert (Hcross : j * U * U * (100 * U) <= k * U * U * (100 * U)).
  { apply Z.mul_le_mono_nonneg_r; [lia|].
    apply Z.mul_le_mono_nonneg_r; [lia|]. apply Z.mul_le_mono_nonneg_r; lia. }
  exact (proj2 (round_rat_mono (j * U * U) (100 * U) (k * U * U) (100 * U)
                  ltac:(nia) ltac:(lia) ltac:(nia) ltac:(lia) Hcross Nk)).
Qed.

Lemma py_round_eq (x : float) :
  valid x -> nonneg_finite x ->
  py_round x 2 = hundredth (round_half_even (100 * ival x) (2 ^ 1074)).
Proof.
  intros V N. pose proof (pow2_pos 1074 ltac:(lia)) as HU.
  destruct x as [[|]| | |[|] m e]; try contradiction.
  - cbn [py_round ival]. reflexivity.
  - destruct (valid_finite_inv _ _ _ V) as (He & _).
    cbn [py_round ival]. rewrite Z.mul_1_l. unfold hundredth. f_equal.
    pose proof (pow2_pos (Z.max (- e) 0) ltac:(lia)) as Hden.
    apply round_half_even_cross; [assumption | assumption |].
    change (10 ^ 2) with 100.
    assert (Hsplit : 2 ^ Z.max e 0 * 2 ^ 1074
                     = 2 ^ Z.max (- e) 0 * 2 ^ (e + 1074))
      by (rewrite <- !Z.pow_add_r by lia; f_equal; lia).
    transitivity (Zpos m * 100 * (2 ^ Z.max e 0 * 2 ^ 1074)); [ring|].
    rewrite Hsplit. ring.
Qed.

Lemma hundredth_of_unit (x : float) :
  unit_float x -> 0 <= round_half_even (100 * ival x) (2 ^ 1074) <= 100.
Proof.
  intros (V & N & B). pose proof (ival_nonneg x V N).
  pose proof (pow2_pos 1074 ltac:(lia)) as HU. split.
  - apply round_half_even_nonneg; lia.
  - apply round_half_even_le; lia.
Qed.

Lemma py_round_mono (x y : float) :
  unit_float x -> unit_float y -> ival x <= ival y ->
  ival (py_round x 2) <= ival (py_round y 2).
Proof.
  intros Hx Hy Hxy.
  pose proof (hundredth_of_unit x Hx). pose proof (hundredth_of_unit y Hy).
  destruct Hx as (Vx & Nx & _). destruct Hy as (Vy & Ny & _).
  rewrite (py_round_eq x Vx Nx), (py_round_eq y Vy Ny).
  apply hundredth_mono; [|lia]. split; [lia|].
  apply round_half_even_mono; [apply pow2_pos|]; lia.
Qed.


End Float64Ops.

Import Float64Ops.

(* ================================================================= *)
(** * Binary64 rounding: nearest numbers *)

Module Float64Nearest.

(** ** Rounding returns a nearest number *)

Lemma round_half_even_closest (a c j : Z) :
  0 < c -> Z.abs (round_half_even a c * c - a) <= Z.abs (j * c - a).
Proof.
  intros Hc. pose proof (round_half_even_err a c Hc) as He.
  set (m := round_half_even a c) in *.
  destruct (Z.eq_dec j m) as [->|Hne]; [lia|].
  assert (j <= m - 1 \/ m + 1 <= j) as [Hj|Hj] by lia.
  - assert (0 <= ((m - 1) - j) * c) by nia. lia.
  - assert (0 <= (j - (m + 1)) * c) by nia. lia.
Qed.


Lemma abs_scale (x P : Z) : 0 <= P -> Z.abs (x * P) = Z.abs x * P.
Proof. intros HP. rewrite Z.abs_mul, (Z.abs_eq P HP). reflexivity. Qed.

(** No valid finite double is closer to [a / c * 2^e] than [round_at]. *)
Lemma round_at_closest (a c e : Z) (f : float) :
  0 <= a -> 0 < c -> positioned a c e ->
  nonneg_finite (round_at false a c e) ->
  valid f -> is_finite f ->
  Z.abs (c * ival (round_at false a c e) - a * 2 ^ (e + 1074))
  <= Z.abs (c * ival f - a * 2 ^ (e + 1074)).
Proof.
  intros Ha Hc HP Hfin Vf Ff.
  pose proof (round_at_no_overflow a c e Ha Hc HP Hfin) as Hov.
  destruct (round_at_value a c e Ha Hc HP Hov) as [_ Hval]. rewrite Hval.
  destruct HP as (He & Hhi & Hlo).
  pose proof (pow2_pos (e + 1074) ltac:(lia)) as HPp.
  set (P := 2 ^ (e + 1074)) in *.
  set (m := round_half_even a c).
  pose proof (round_half_even_closest a c 0 Hc) as C0.
  pose proof (round_half_even_closest a c (2 ^ 52) Hc) as C52.
  pose proof (round_half_even_closest a c (2 ^ 53) Hc) as C53.
  fold m in C0, C52, C53.
  replace (c * (m * P) - a * P) with ((m * c - a) * P) by ring.
  rewrite abs_scale by lia.
  set (D := Z.abs (m * c - a)) in *.
  assert (HD0 : 0 <= D) by (unfold D; lia).
  assert (HDa : D <= a) by lia.
  destruct f as [sf| | |sf mf ef]; try contradiction.
  - cbn [ival]. rewrite Z.mul_0_r. nia.
  - destruct (valid_finite_inv _ _ _ Vf) as (Hef & Hmf & Hnorm).
    pose proof (pow2_pos (ef + 1074) ltac:(lia)) as HPf.
    cbn [ival]. set (Pf := 2 ^ (ef + 1074)) in *.
    destruct sf.
    + assert (0 < Z.pos mf * Pf) by nia.
      rewrite Z.abs_neq by nia. nia.
    + rewrite Z.mul_1_l.
      destruct (Z.lt_trichotomy ef e) as [Hlt|[Heq|Hgt]].
      * specialize (Hlo ltac:(lia)).
        assert (HPP : 2 * Pf <= P).
        { unfold P, Pf. replace (e + 1074) with ((ef + 1074) + (e - ef)) by lia.
          rewrite (Z.pow_add_r 2 (ef + 1074) (e - ef)) by lia.
          assert (2 ^ 1 <= 2 ^ (e - ef)) by (apply pow2_le; lia).
          change (2 ^ 1) with 2 in *. nia. }
        assert (Hf : Z.pos mf * Pf <= 2 ^ 52 * P).
        { change (2 ^ 53) with (2 * 2 ^ 52) in Hmf. nia. }
        assert (Hcf : c * (Z.pos mf * Pf) <= c * (2 ^ 52 * P))
          by (apply Z.mul_le_mono_nonneg_l; lia).
        assert (Hca : c * (2 ^ 52 * P) <= a * P).
        { replace (c * (2 ^ 52 * P)) with (2 ^ 52 * c * P) by ring.
          apply Z.mul_le_mono_nonneg_r; lia. }
        rewrite Z.abs_neq by lia.
        assert (D * P <= (a - 2 ^ 52 * c) * P)
          by (apply Z.mul_le_mono_nonneg_r; lia).
        lia.
      * subst ef. fold P in Pf. subst Pf.
        replace (c * (Z.pos mf * P) - a * P) with ((Z.pos mf * c - a) * P) by ring.
        rewrite abs_scale by lia.
        apply Z.mul_le_mono_nonneg_r; [lia|].
        apply round_half_even_closest; assumption.
      * specialize (Hnorm ltac:(lia)).
        assert (HPP : 2 * P <= Pf).
        { unfold P, Pf. replace (ef + 1074) with ((e + 1074) + (ef - e)) by lia.
          rewrite (Z.pow_add_r 2 (e + 1074) (ef - e)) by lia.
          assert (2 ^ 1 <= 2 ^ (ef - e)) by (apply pow2_le; lia).
          change (2 ^ 1) with 2 in *. nia. }
        assert (Hf : 2 ^ 53 * P <= Z.pos mf * Pf).
        { change (2 ^ 53) with (2 ^ 52 * 2). nia. }
        assert (Hcf : c * (2 ^ 53 * P) <= c * (Z.pos mf * Pf))
          by (apply Z.mul_le_mono_nonneg_l; lia).
        assert (Hca : a * P <= c * (2 ^ 53 * P)).
        { replace (c * (2 ^ 53 * P)) with (2 ^ 53 * c * P) by ring.
          apply Z.mul_le_mono_nonneg_r; lia. }
        rewrite (Z.abs_eq (c * (Z.pos mf * Pf) - a * P)) by lia.
        assert (D * P <= (2 ^ 53 * c - a) * P)
          by (apply Z.mul_le_mono_nonneg_r; lia).
        lia.
Qed.

(** No valid finite double is closer to [n / d] than [round_rat]. *)
Lemma round_rat_closest (n d : Z) (f : float) :
  0 <= n -> 0 < d -> nonneg_finite (round_rat false n d) ->
  valid f -> is_finite f ->
  Z.abs (d * ival (round_rat false n d) - n) <= Z.abs (d * ival f - n).
Proof.
  intros Hn Hd Hfin Vf Ff.
  destruct (positioned_rat n d Hn Hd) as [HE HP].
  unfold round_rat in *.
  set (E := Z.max (Zdigits2 (n / d) - 53) 0) in *.
  pose proof (pow2_pos E HE) as HpE.
  pose proof (round_at_closest n (d * 2 ^ E) (E - 1074) f Hn ltac:(nia) HP Hfin Vf Ff)
    as H.
  replace (E - 1074 + 1074) with E in H by lia.
  set (r := round_at false n (d * 2 ^ E) (E - 1074)) in *.
  replace (d * 2 ^ E * ival r - n * 2 ^ E) with ((d * ival r - n) * 2 ^ E) in H by ring.
  replace (d * 2 ^ E * ival f - n * 2 ^ E) with ((d * ival f - n) * 2 ^ E) in H by ring.
  rewrite !abs_scale in H by lia.
  apply (Z.mul_le_mono_pos_r _ _ (2 ^ E) HpE). exact H.
Qed.

Lemma nonneg_finite_is_finite (x : float) : nonneg_finite x -> is_finite x.
Proof. destruct x as [[|]| | |[|] m e]; cbn; auto. Qed.

(** A quotient of two integers is a double nearest to the exact quotient. *)
Lemma fdiv_raw_nearest (s n : Z) :
  0 <= s -> 0 < n -> nonneg_finite (fdiv (raw s) (raw n)) ->
  nearest_double s n (fdiv (raw s) (raw n)).
Proof.
  intros Hs Hn. rewrite fdiv_raw by assumption. intros Hfin.
  pose proof (pow2_pos 1074 ltac:(lia)) as HU. set (U := 2 ^ 1074) in *.
  split; [apply round_rat_valid; nia|].
  split; [apply nonneg_finite_is_finite; assumption|].
  intros f Vf Ff.
  pose proof (round_rat_closest (s * U * U) (n * U) f ltac:(nia) ltac:(nia)
                Hfin Vf Ff) as H.
  set (r := round_rat false (s * U * U) (n * U)) in *.
  replace (n * U * ival r - s * U * U) with ((n * ival r - s * U) * U) in H by ring.
  replace (n * U * ival f - s * U * U) with ((n * ival f - s * U) * U) in H by ring.
  rewrite !abs_scale in H by lia.
  apply (Z.mul_le_mono_pos_r _ _ U HU). exact H.
Qed.






End Float64Nearest.

Import Float64Nearest.

(* ================================================================= *)
(** * The scorer *)

(** ** The sum of the luminance values *)

Lemma fold_add_shift (l : list Z) (a : Z) :
  fold_left Z.add l a = a + fold_left Z.add l 0.
Proof.
  revert a. induction l as [|x l IH]; intros a; cbn [fold_left].
  - lia.
  - rewrite (IH (a + x)), (IH (0 + x)). lia.
Qed.

Lemma sum_cons (x : Z) (l : list Z) : sum (x :: l) = x + sum l.
Proof. unfold sum. cbn [fold_left]. rewrite fold_add_shift. lia. Qed.

Lemma chan_range (b : byte) : 0 <= chan b <= 255.
Proof. unfold chan. pose proof (Byte.to_N_bounded b). lia. Qed.

(** The greyscale value of a pixel is its fixed-point luma: the shifted
    sum always fits a byte. *)
Lemma rgb2l_value (p : rgb) : chan (rgb2l p) = Z.shiftr (L24 p) 16.
Proof.
  destruct p as [[r g] b]. unfold rgb2l, byte_of_Z.
  pose proof (chan_range r). pose proof (chan_range g). pose proof (chan_range b).
  set (v := Z.shiftr (L24 (r, g, b)) 16).
  assert (Hv : 0 <= v <= 255).
  { unfold v. rewrite Z.shiftr_div_pow2 by lia. change (2 ^ 16) with 65536.
    cbn [L24]. split.
    - apply Z.div_pos; lia.
    - apply Z.lt_succ_r. apply Z.div_lt_upper_bound; lia. }
  destruct (Byte.of_N (Z.to_N v)) as [c|] eqn:E.
  - unfold chan. rewrite (Byte.to_of_N _ E). lia.
  - apply Byte.of_N_None_iff in E. lia.
Qed.

Lemma sum_chan_range (l : list byte) :
  0 <= sum (map chan l) <= 255 * Z.of_nat (List.length l).
Proof.
  induction l as [|b l IH]; [cbn; lia|].
  cbn [map List.length]. rewrite sum_cons. pose proof (chan_range b). lia.
Qed.

Lemma sum_all (k : Z) (l : list Z) :
  Forall (fun x => x = k) l -> sum l = k * Z.of_nat (List.length l).
Proof.
  induction 1 as [|x l Hx _ IH]; [cbn; lia|].
  rewrite sum_cons, IH, Hx. cbn [List.length]. lia.
Qed.

Lemma getdata_convert_L (image : Image) :
  getdata (convert_L image) = map chan (raster_L (pixels image)).
Proof. reflexivity. Qed.

Lemma area_convert_L (image : Image) : area (convert_L image) = area image.
Proof. reflexivity. Qed.

Lemma luminances_length (image : Image) :
  Z.of_nat (List.length (luminances image)) = area image.
Proof.
  unfold luminances, area. rewrite getdata_convert_L, length_map.
  rewrite raster_L_length, (size_ok image). apply Nat2Z.inj_mul.
Qed.

Lemma luminances_sum_range (image : Image) :
  0 <= sum (luminances image) <= 255 * area image.
Proof.
  rewrite <- luminances_length. unfold luminances.
  rewrite getdata_convert_L, length_map. apply sum_chan_range.
Qed.

(** ** [min] and [max] on floats between 0 and 1 *)

Lemma py_min_one_unit (x : float) : unit_float x -> py_min lit_1_0 x = x.
Proof.
  intros (V & N & H). unfold py_min.
  rewrite (flt_ival x lit_1_0 V valid_lit_1_0 N I), ival_lit_1_0.
  destruct (Z.ltb_spec (ival x) (2 ^ 1074)); [reflexivity|].
  symmetry. apply ival_inj; try assumption; [apply valid_lit_1_0 | exact I |].
  rewrite ival_lit_1_0. lia.
Qed.

Lemma py_max_zero_unit (x : float) : unit_float x -> py_max lit_0_0 x = x.
Proof.
  intros (V & N & H). unfold py_max.
  assert (V0 : valid lit_0_0) by reflexivity.
  rewrite (flt_ival lit_0_0 x V0 V I N). change (ival lit_0_0) with 0.
  destruct (Z.ltb_spec 0 (ival x)); [reflexivity|].
  pose proof (ival_nonneg x V N).
  symmetry. apply ival_inj; try assumption; [exact I|].
  change (ival lit_0_0) with 0. lia.
Qed.


(** ** The scores of an image with at least one pixel *)

Lemma float_truediv_255 (x : float) :
  float_truediv x (float_of_int 255) = Ok (fdiv x (float_of_int 255)).
Proof. rewrite float_of_int_255. reflexivity. Qed.

(** The shape of the scorer's result: the average is a float between 0
    and 255, its quotient by 255 lies between 0 and 1, and neither [min]
    nor [max] changes anything. *)
Lemma score_gray_eq (gray : Image) :
  1 <= area gray -> 0 <= sum (getdata gray) <= 255 * area gray ->
  exists avg,
    int_truediv (sum (getdata gray)) (area gray) = Ok avg /\
    valid avg /\ nonneg_finite avg /\ ival avg <= 255 * 2 ^ 1074 /\
    unit_float (fdiv avg (float_of_int 255)) /\
    unit_float (fsub (float_of_int 1) (fdiv avg (float_of_int 255))) /\
    score_gray gray =
      Ok [("happy", fdiv avg (float_of_int 255));
          ("sad", fsub (float_of_int 1) (fdiv avg (float_of_int 255)));
          ("angry", lit_0_1);
          ("surprised", lit_0_1);
          ("neutral", lit_0_5);
          ("confused", lit_0_1)]%string.
Proof.
  intros Ha Hs.
  pose proof (pow2_pos 1074 ltac:(lia)) as HU.
  destruct (int_truediv_bounded (sum (getdata gray)) (area gray) (float_of_int 255)
              ltac:(lia) ltac:(lia) valid_255
              ltac:(rewrite float_of_int_255; exact I)
              ltac:(rewrite ival_255; nia))
    as (avg & Havg & _ & V & N & Hle).
  rewrite ival_255 in Hle.
  pose proof (fdiv_255_unit avg V N Hle) as Hh.
  pose proof (fsub_one_unit _ Hh) as Hsd.
  exists avg. repeat (split; [assumption|]).
  unfold score_gray. rewrite Havg. cbn [bind].
  rewrite float_truediv_255. cbn [bind].
  rewrite (py_min_one_unit _ Hh), (py_max_zero_unit _ Hsd). reflexivity.
Qed.

Lemma basic_emotion_analysis_eq (image : Image) :
  1 <= area image ->
  exists avg,
    int_truediv (sum (luminances image)) (area image) = Ok avg /\
    valid avg /\ nonneg_finite avg /\ ival avg <= 255 * 2 ^ 1074 /\
    unit_float (fdiv avg (float_of_int 255)) /\
    unit_float (fsub (float_of_int 1) (fdiv avg (float_of_int 255))) /\
    basic_emotion_analysis image =
      Ok [("happy", fdiv avg (float_of_int 255));
          ("sad", fsub (float_of_int 1) (fdiv avg (float_of_int 255)));
          ("angry", lit_0_1);
          ("surprised", lit_0_1);
          ("neutral", lit_0_5);
          ("confused", lit_0_1)]%string.
Proof.
  intros Ha.
  exact (score_gray_eq (convert_L image) Ha (luminances_sum_range image)).
Qed.

Lemma basic_emotion_analysis_empty (image : Image) :
  area image = 0 -> basic_emotion_analysis image = Raise ZeroDivisionError.
Proof.
  intros Ha. unfold basic_emotion_analysis, score_gray.
  rewrite area_convert_L, Ha. reflexivity.
Qed.

Lemma area_nonneg (image : Image) : 0 <= area image.
Proof. unfold area. lia. Qed.

(** ** The constants and their roundings *)

Lemma constants_in_unit :
  in_unit lit_0_1 = true /\ in_unit lit_0_5 = true /\
  in_unit (py_round lit_0_1 2) = true /\ in_unit (py_round lit_0_5 2) = true.
Proof. vm_compute. repeat split. Qed.

Lemma in_unit_round (x : float) :
  unit_float x -> in_unit x = true /\ in_unit (py_round x 2) = true.
Proof.
  intros H. split; apply unit_float_in_unit; [exact H | apply py_round_unit, H].
Qed.

(* ================================================================= *)
(** * The request handler *)

Lemma split_unfold (sep : ascii) (s : string) :
  split sep s
  = before_first sep s ::
    match after_first sep s with
    | Some rest => split sep rest
    | None => []
    end.
Proof.
  induction s as [|c s IH]; cbn [split before_first after_first]; [reflexivity|].
  destruct (Ascii.eqb c sep); [reflexivity|]. rewrite IH. reflexivity.
Qed.

Lemma split_second (sep : ascii) (s rest : string) :
  after_first sep s = Some rest ->
  nth_error (split sep s) 1 = Some (before_first sep rest).
Proof.
  intros H. rewrite split_unfold, H. cbn [nth_error].
  rewrite split_unfold. reflexivity.
Qed.

Lemma split_no_second (sep : ascii) (s : string) :
  contains sep s = false -> nth_error (split sep s) 1 = None.
Proof.
  intros H. rewrite split_unfold.
  replace (after_first sep s) with (@None string); [reflexivity|].
  induction s as [|c s IH]; cbn [after_first contains] in *; [reflexivity|].
  destruct (Ascii.eqb c sep); [discriminate H | apply IH, H].
Qed.

Lemma before_first_all (sep : ascii) (s : string) :
  contains sep s = false -> before_first sep s = s.
Proof.
  induction s as [|c s IH]; cbn [before_first contains]; [reflexivity|].
  destruct (Ascii.eqb c sep); [discriminate|]. intros H. rewrite (IH H). reflexivity.
Qed.

Lemma image_data_of_str (data : json) (s : string) :
  getitem data "image" = Ok (JStr s) ->
  image_data_of data = index (split "," s) 1.
Proof. intros H. unfold image_data_of. rewrite H. reflexivity. Qed.

(** ** Strings and the parsing of the request *)

Lemma contains_before_first (sep : ascii) (s : string) :
  contains sep (before_first sep s) = false.
Proof.
  induction s as [|c s IH]; cbn [before_first]; [reflexivity|].
  destruct (Ascii.eqb c sep) eqn:E; [reflexivity|].
  cbn [contains]. rewrite E. exact IH.
Qed.

Lemma after_first_app (sep : ascii) (pre rest : string) :
  contains sep pre = false ->
  after_first sep (pre ++ String sep rest)%string = Some rest.
Proof.
  induction pre as [|c pre IH]; cbn [append after_first contains].
  - intros _. rewrite Ascii.eqb_refl. reflexivity.
  - destruct (Ascii.eqb c sep); [discriminate | exact IH].
Qed.

Lemma after_first_none (sep : ascii) (s : string) :
  contains sep s = false <-> after_first sep s = None.
Proof.
  induction s as [|c s IH]; cbn [after_first contains]; [tauto|].
  destruct (Ascii.eqb c sep); cbn [orb]; [split; discriminate | exact IH].
Qed.

Lemma split_nonempty (sep : ascii) (s : string) : split sep s <> [].
Proof. rewrite split_unfold. discriminate. Qed.

Lemma split_pieces (sep : ascii) (s : string) :
  Forall (fun p => contains sep p = false) (split sep s).
Proof.
  induction s as [|c s IH]; cbn [split].
  - repeat constructor.
  - destruct (Ascii.eqb c sep) eqn:E.
    + constructor; [reflexivity | exact IH].
    + destruct (split sep s) as [|hd tl]; [repeat constructor; cbn; rewrite E; reflexivity|].
      inversion IH as [|? ? Hhd Htl]; subst.
      constructor; [cbn [contains]; rewrite E; exact Hhd | exact Htl].
Qed.

Lemma join_split (sep : ascii) (s : string) : join sep (split sep s) = s.
Proof.
  induction s as [|c s IH]; cbn [split]; [reflexivity|].
  destruct (Ascii.eqb_spec c sep) as [->|Hne].
  - pose proof (split_nonempty sep s) as Hnil.
    destruct (split sep s) as [|hd tl] eqn:E; [contradiction|].
    cbn [join append]. cbn [join] in IH. rewrite IH. reflexivity.
  - pose proof (split_nonempty sep s) as Hnil.
    destruct (split sep s) as [|hd tl] eqn:E; [contradiction|].
    destruct tl as [|x tl]; cbn [join append] in *; rewrite IH; reflexivity.
Qed.

Lemma split_no_sep (sep : ascii) (s : string) :
  contains sep s = false -> split sep s = [s].
Proof.
  induction s as [|c s IH]; cbn [split contains]; [reflexivity|].
  destruct (Ascii.eqb c sep); [discriminate|]. intros H. rewrite (IH H). reflexivity.
Qed.

Lemma split_app (sep : ascii) (p rest : string) :
  contains sep p = false ->
  split sep (p ++ String sep rest)%string = p :: split sep rest.
Proof.
  induction p as [|c p IH]; cbn [append split contains].
  - intros _. rewrite Ascii.eqb_refl. reflexivity.
  - destruct (Ascii.eqb c sep); [discriminate|]. intros H. rewrite (IH H). reflexivity.
Qed.

Lemma split_join (sep : ascii) (l : list string) :
  l <> [] -> Forall (fun p => contains sep p = false) l ->
  split sep (join sep l) = l.
Proof.
  induction l as [|x l IH]; [contradiction|]. intros _ H.
  inversion H as [|? ? Hx Hl]; subst.
  destruct l as [|y l].
  - cbn [join]. apply split_no_sep, Hx.
  - change (join sep (x :: y :: l))
      with (x ++ String sep (join sep (y :: l)))%string.
    rewrite (split_app sep x _ Hx), IH; [reflexivity | discriminate | exact Hl].
Qed.

Lemma image_data_of_ok_inv (data : json) (payload : string) :
  image_data_of data = Ok payload ->
  exists s rest,
    getitem data "image" = Ok (JStr s) /\ after_first "," s = Some rest /\
    payload = before_first "," rest.
Proof.
  unfold image_data_of. intros H.
  destruct (getitem data "image") as [v|e]; [|discriminate H].
  destruct v as [| b | z | s | l | items]; try discriminate H.
  cbn [bind str_split] in H. unfold index in H.
  destruct (after_first "," s) as [rest|] eqn:E.
  - rewrite (split_second "," s rest E) in H. injection H as <-.
    exists s, rest. repeat split. exact E.
  - apply after_first_none in E.
    rewrite (split_no_second "," s E) in H. discriminate H.
Qed.

Lemma image_data_of_ok (data : json) (s rest : string) :
  getitem data "image" = Ok (JStr s) -> after_first "," s = Some rest ->
  image_data_of data = Ok (before_first "," rest).
Proof.
  intros Hget Hrest. rewrite (image_data_of_str data s Hget). unfold index.
  rewrite (split_second "," s rest Hrest). reflexivity.
Qed.

(** ** The sum of the pixels *)

Lemma sum_permutation (l1 l2 : list Z) : Permutation l1 l2 -> sum l1 = sum l2.
Proof.
  induction 1 as [| x l l' _ IH | x y l | l l' l'' _ IH1 _ IH2].
  - reflexivity.
  - rewrite !sum_cons, IH. reflexivity.
  - rewrite !sum_cons. lia.
  - congruence.
Qed.

Lemma basic_emotion_analysis_by_mean (image1 image2 : Image) :
  int_truediv (sum (luminances image1)) (area image1)
  = int_truediv (sum (luminances image2)) (area image2) ->
  basic_emotion_analysis image1 = basic_emotion_analysis image2.
Proof.
  intros H. unfold basic_emotion_analysis, score_gray.
  change (getdata (convert_L image1)) with (luminances image1).
  change (getdata (convert_L image2)) with (luminances image2).
  rewrite !area_convert_L, H. reflexivity.
Qed.

Lemma fle_of_ival (x y : float) :
  valid x -> nonneg_finite x -> valid y -> nonneg_finite y ->
  ival x <= ival y -> fle x y = true.
Proof.
  intros Vx Nx Vy Ny H. rewrite (fle_ival x y Vx Vy Nx Ny). apply Z.leb_le, H.
Qed.

Lemma unit_fle (x y : float) :
  unit_float x -> unit_float y -> ival x <= ival y -> fle x y = true.
Proof.
  intros (Vx & Nx & _) (Vy & Ny & _). apply fle_of_ival; assumption.
Qed.

(* ================================================================= *)
(** * The claims *)





(** C2: for every image with at least one pixel the scores have exactly the
    six labels, and every value lies in [0.0, 1.0], before and after it is
    rounded. *)
Theorem C2_six_labels_in_unit (image : Image) :
  1 <= area image ->
  exists emo,
    basic_emotion_analysis image = Ok emo /\
    map fst emo = labels /\
    Forall (fun kv => in_unit (snd kv) = true) emo /\
    map fst (round_scores emo) = labels /\
    Forall (fun kv => in_unit (snd kv) = true) (round_scores emo).
Proof.
  intros Ha.
  destruct (basic_emotion_analysis_eq image Ha)
    as (avg & _ & _ & _ & _ & Hh & Hs & Hemo).
  destruct (in_unit_round _ Hh) as [Hh1 Hh2].
  destruct (in_unit_round _ Hs) as [Hs1 Hs2].
  destruct constants_in_unit as (K1 & K2 & K3 & K4).
  eexists. split; [exact Hemo|].
  split; [reflexivity|]. split; [|split; [reflexivity|]].
  - repeat (apply Forall_cons; [cbn [snd]; assumption|]). apply Forall_nil.
  - cbn [round_scores map fst snd].
    repeat (apply Forall_cons; [cbn [snd]; assumption|]). apply Forall_nil.
Qed.

Lemma C2_witness :
  1 <= area image_1x1_dark /\
  exists emo,
    basic_emotion_analysis image_1x1_dark = Ok emo /\ map fst emo = labels.
Proof.
  assert (H : 1 <= area image_1x1_dark) by (vm_compute; discriminate).
  split; [exact H|].
  destruct (C2_six_labels_in_unit image_1x1_dark H) as (emo & H1 & H2 & _).
  exists emo. split; [exact H1 | exact H2].
Defined.

(** C3, as the source has it: for a request whose image field is a string
    with at least one comma, the payload handed to the decoder is the part
    of the field between its first comma and its second one, or the end of
    the string; it is the whole part after the first comma exactly when
    that part has no comma of its own. *)
Theorem C3_payload_segment (data : json) (s rest : string) :
  getitem data "image" = Ok (JStr s) ->
  after_first "," s = Some rest ->
  image_data_of data = Ok (before_first "," rest) /\
  (forall b64decode image_open,
     facial_analysis b64decode image_open data
     = analyse_payload b64decode image_open (before_first "," rest)) /\
  (before_first "," rest = rest <-> contains "," rest = false).
Proof.
  intros Hget Hrest.
  assert (E : image_data_of data = Ok (before_first "," rest)).
  { rewrite (image_data_of_str data s Hget). unfold index.
    rewrite (split_second "," s rest Hrest). reflexivity. }
  split; [exact E|]. split.
  - intros b64decode image_open. unfold facial_analysis. rewrite E. reflexivity.
  - split; [|apply before_first_all].
    intros Hall. rewrite <- Hall. apply contains_before_first.
Qed.

Lemma C3_witness :
  image_data_of (body_with (JStr "data:image/png;base64,AAAA")) = Ok "AAAA"%string.
Proof.
  apply (C3_payload_segment (body_with (JStr "data:image/png;base64,AAAA"))
           "data:image/png;base64,AAAA" "AAAA"); reflexivity.
Defined.

(** C3 as the claim states it fails: with a second comma in the field, the
    payload is not everything after the first comma. *)
Lemma C3_counterexample :
  ~ (forall s rest : string,
       after_first "," s = Some rest ->
       image_data_of (body_with (JStr s)) = Ok rest).
Proof.
  intros H. specialize (H "a,b,c"%string "b,c"%string eq_refl).
  vm_compute in H. discriminate H.
Qed.

(** C4, as the source has it: a request whose body has no image field (or
    is not an object), whose image field is not a string, or is a string
    with no comma, fails with [MalformedRequest], and nothing is returned. *)
Theorem C4_malformed_request
  (b64decode : string -> result (list byte))
  (image_open : list byte -> result OpenedImage) (data : json) :
  (forall s, getitem data "image" = Ok (JStr s) -> contains "," s = false) ->
  exists e,
    facial_analysis b64decode image_open data = Raise e /\
    classify e = MalformedRequest.
Proof.
  intros H. unfold facial_analysis, image_data_of.
  destruct (getitem data "image") as [v|e] eqn:Hget.
  - destruct v as [| b | z | s | l | items];
      try (exists AttributeError; split; reflexivity).
    cbn [bind str_split]. unfold index.
    rewrite (split_no_second "," s (H s eq_refl)).
    exists IndexError. split; reflexivity.
  - exists e. split; [reflexivity|].
    unfold getitem in Hget.
    destruct data; try (injection Hget as <-; reflexivity).
    destruct (lookup "image" items); [discriminate Hget|].
    injection Hget as <-. reflexivity.
Qed.

Lemma C4_witness :
  exists e,
    facial_analysis b64decode_any image_open_2x2 (body_with (JStr "AAAA")) = Raise e /\
    classify e = MalformedRequest.
Proof.
  apply C4_malformed_request.
  intros s H. injection H as <-. reflexivity.
Defined.

(** C4 as the claim states it fails: a field that is no data-URL, but has
    a comma, is not rejected; when the part after the comma decodes to an
    image, the handler answers. *)
Lemma C4_counterexample :
  ~ (forall b64decode image_open data,
       match getitem data "image" with
       | Ok (JStr s) => data_url s = false
       | _ => True
       end ->
       exists e,
         facial_analysis b64decode image_open data = Raise e /\
         classify e = MalformedRequest).
Proof.
  intros H.
  destruct (H b64decode_any image_open_2x2 (body_with (JStr "x,AAAA")) eq_refl)
    as (e & He & _).
  vm_compute in He. discriminate He.
Qed.

(** C5: the scorer fails with a division by zero, an [InvalidImage], exactly
    on the images of zero area, and returns scores exactly on the images
    with at least one pixel. *)
Theorem C5_zero_area (image : Image) :
  (basic_emotion_analysis image = Raise ZeroDivisionError <-> area image = 0) /\
  ((exists emo, basic_emotion_analysis image = Ok emo) <-> 1 <= area image) /\
  classify ZeroDivisionError = InvalidImage.
Proof.
  pose proof (area_nonneg image) as H0.
  destruct (Z.eq_dec (area image) 0) as [E|E].
  - pose proof (basic_emotion_analysis_empty image E) as Hr.
    split; [split; [intros _; exact E | intros _; exact Hr]|].
    split; [|reflexivity].
    split; [intros [emo He]; rewrite Hr in He; discriminate He | lia].
  - destruct (basic_emotion_analysis_eq image ltac:(lia))
      as (avg & _ & _ & _ & _ & _ & _ & Hemo).
    split; [split; [intros Hr; rewrite Hemo in Hr; discriminate Hr | lia]|].
    split; [|reflexivity].
    split; [lia | intros _; eexists; exact Hemo].
Qed.

(** C6: an image with at least one pixel, all of luminance 0, gets
    [happy = 0.0] and [sad = 1.0]; all of luminance 255, [happy = 1.0] and
    [sad = 0.0]. *)
Theorem C6_black_and_white (image : Image) :
  1 <= area image ->
  (Forall (fun l => l = 0) (luminances image) ->
   exists emo,
     basic_emotion_analysis image = Ok emo /\
     dict_get "happy" emo = Some lit_0_0 /\ dict_get "sad" emo = Some lit_1_0) /\
  (Forall (fun l => l = 255) (luminances image) ->
   exists emo,
     basic_emotion_analysis image = Ok emo /\
     dict_get "happy" emo = Some lit_1_0 /\ dict_get "sad" emo = Some lit_0_0).
Proof.
  intros Ha. split; intros Hall.
  - pose proof (sum_all 0 _ Hall) as Hsum. rewrite luminances_length in Hsum.
    assert (Hdiv : int_truediv (sum (luminances image)) (area image)
                   = Ok (S754_zero false)).
    { rewrite Hsum.
      apply int_truediv_exact; [lia | reflexivity | exact I | reflexivity]. }
    unfold basic_emotion_analysis, score_gray.
    change (getdata (convert_L image)) with (luminances image).
    rewrite area_convert_L, Hdiv.
    eexists. split; [vm_compute; reflexivity|]. split; vm_compute; reflexivity.
  - pose proof (sum_all 255 _ Hall) as Hsum. rewrite luminances_length in Hsum.
    assert (Hdiv : int_truediv (sum (luminances image)) (area image)
                   = Ok (float_of_int 255)).
    { rewrite Hsum.
      apply int_truediv_exact;
        [lia | apply valid_255 | rewrite float_of_int_255; exact I | apply ival_255]. }
    unfold basic_emotion_analysis, score_gray.
    change (getdata (convert_L image)) with (luminances image).
    rewrite area_convert_L, Hdiv.
    eexists. split; [vm_compute; reflexivity|]. split; vm_compute; reflexivity.
Qed.

Lemma C6_witness :
  1 <= area image_1x1_black /\
  exists emo,
    basic_emotion_analysis image_1x1_black = Ok emo /\
    dict_get "happy" emo = Some lit_0_0 /\ dict_get "sad" emo = Some lit_1_0.
Proof.
  assert (H : 1 <= area image_1x1_black) by (vm_compute; discriminate).
  split; [exact H|].
  apply (proj1 (C6_black_and_white image_1x1_black H)).
  repeat constructor.
Defined.

(** C7: for every image with at least one pixel, [angry], [surprised] and
    [confused] are 0.1 and [neutral] is 0.5, whatever the pixels and the
    size: the doubles [7205759403792794 * 2^-56] and [2^52 * 2^-53], of
    which none lies closer to 1/10 and to 1/2. *)
Theorem C7_constants (image : Image) :
  1 <= area image ->
  exists emo,
    basic_emotion_analysis image = Ok emo /\
    dict_get "angry" emo = Some double_0_1 /\
    dict_get "surprised" emo = Some double_0_1 /\
    dict_get "neutral" emo = Some double_0_5 /\
    dict_get "confused" emo = Some double_0_1 /\
    nearest_double 1 10 double_0_1 /\
    nearest_double 1 2 double_0_5.
Proof.
  intros Ha.
  destruct (basic_emotion_analysis_eq image Ha)
    as (avg & _ & _ & _ & _ & _ & _ & Hemo).
  assert (E1 : fdiv (raw 1) (raw 10) = double_0_1) by (vm_compute; reflexivity).
  assert (E5 : fdiv (raw 1) (raw 2) = double_0_5) by (vm_compute; reflexivity).
  assert (L1 : lit_0_1 = double_0_1) by (vm_compute; reflexivity).
  assert (L5 : lit_0_5 = double_0_5) by (vm_compute; reflexivity).
  eexists. split; [exact Hemo|].
  cbn [dict_get String.eqb Ascii.eqb Bool.eqb]. rewrite L1, L5.
  do 4 (split; [reflexivity|]). split.
  - rewrite <- E1. apply fdiv_raw_nearest; [lia | lia | rewrite E1; exact I].
  - rewrite <- E5. apply fdiv_raw_nearest; [lia | lia | rewrite E5; exact I].
Qed.

Lemma C7_witness :
  1 <= area image_1x1_white /\
  exists emo,
    basic_emotion_analysis image_1x1_white = Ok emo /\
    dict_get "angry" emo = Some double_0_1.
Proof.
  assert (H : 1 <= area image_1x1_white) by (vm_compute; discriminate).
  split; [exact H|].
  destruct (C7_constants image_1x1_white H) as (emo & H1 & H2 & _).
  exists emo. split; [exact H1 | exact H2].
Defined.


(** C10: for every image with at least one pixel the average luminance
    lies between 0 and 255, so neither clamp binds:
    [min(1.0, avg / 255)] is [avg / 255] and [max(0.0, 1 - avg / 255)] is
    [1 - avg / 255]; and the sum [happy + sad] of the two unrounded scores,
    as the language adds floats, is exactly [1.0]. *)
Theorem C10_clamps_never_bind (image : Image) :
  1 <= area image ->
  exists avg emo hp sd,
    int_truediv (sum (luminances image)) (area image) = Ok avg /\
    fle lit_0_0 avg = true /\ fle avg (float_of_int 255) = true /\
    py_min lit_1_0 (fdiv avg (float_of_int 255)) = fdiv avg (float_of_int 255) /\
    py_max lit_0_0 (fsub (float_of_int 1) (fdiv avg (float_of_int 255)))
      = fsub (float_of_int 1) (fdiv avg (float_of_int 255)) /\
    basic_emotion_analysis image = Ok emo /\
    dict_get "happy" emo = Some hp /\ dict_get "sad" emo = Some sd /\
    hp = fdiv avg (float_of_int 255) /\ sd = fsub (float_of_int 1) hp /\
    fadd hp sd = lit_1_0.
Proof.
  intros Ha.
  destruct (basic_emotion_analysis_eq image Ha)
    as (avg & Havg & V & N & Hle & Hh & Hs & Hemo).
  exists avg. eexists. eexists. eexists.
  split; [exact Havg|].
  split; [|split].
  - rewrite (fle_ival lit_0_0 avg) by (try assumption; reflexivity || exact I).
    apply Z.leb_le. apply (ival_nonneg avg V N).
  - assert (N255 : nonneg_finite (float_of_int 255))
      by (rewrite float_of_int_255; exact I).
    rewrite (fle_ival avg (float_of_int 255) V valid_255 N N255).
    apply Z.leb_le. rewrite ival_255. exact Hle.
  - split; [apply py_min_one_unit, Hh|].
    split; [apply py_max_zero_unit, Hs|].
    split; [exact Hemo|].
    split; [reflexivity|]. split; [reflexivity|].
    split; [reflexivity|]. split; [reflexivity|].
    apply fadd_fsub_one, Hh.
Qed.

Lemma C10_witness :
  1 <= area image_1x1_dark /\
  exists hp sd,
    (exists emo, basic_emotion_analysis image_1x1_dark = Ok emo /\
                 dict_get "happy" emo = Some hp /\ dict_get "sad" emo = Some sd) /\
    fadd hp sd = lit_1_0.
Proof.
  assert (H : 1 <= area image_1x1_dark) by (vm_compute; discriminate).
  split; [exact H|].
  destruct (C10_clamps_never_bind image_1x1_dark H)
    as (avg & emo & hp & sd & _ & _ & _ & _ & _ & H1 & H2 & H3 & _ & _ & H4).
  exists hp, sd. split; [exists emo; repeat split; assumption | exact H4].
Defined.

(** The two floats themselves need not add up to 1 as real numbers: [sad]
    is [1 - happy] rounded.  For one pixel of luminance 1 the exact values
    differ from 1 by a rounding error, which the float addition absorbs. *)
Remark happy_sad_exact_values :
  exists hp sd,
    basic_emotion_analysis image_1x1_dark
      = Ok [("happy", hp); ("sad", sd); ("angry", lit_0_1);
            ("surprised", lit_0_1); ("neutral", lit_0_5);
            ("confused", lit_0_1)]%string /\
    ival hp + ival sd <> ival lit_1_0 /\
    fadd hp sd = lit_1_0.
Proof.
  eexists. eexists. split; [vm_compute; reflexivity|].
  split; [vm_compute; discriminate | vm_compute; reflexivity].
Qed.

(* ================================================================= *)
(** * Further properties of the handler and the scorer *)

(** ** The handler, end to end *)

(** X1: given the parsed body, the handler answers exactly when the image
    field is a string with a comma, the segment after the comma decodes to
    bytes, the bytes open as an image, the pixels of that image load, and
    it has at least one pixel; the answer is then the response built from
    the scores of that image. *)
Theorem X1_handler_success
  (b64decode : string -> result (list byte))
  (image_open : list byte -> result OpenedImage) (data : json) (resp : Response) :
  facial_analysis b64decode image_open data = Ok resp <->
  exists s rest bytes opened image emo,
    getitem data "image" = Ok (JStr s) /\
    after_first "," s = Some rest /\
    b64decode (before_first "," rest) = Ok bytes /\
    image_open bytes = Ok opened /\
    load opened = Ok image /\
    1 <= area image /\
    basic_emotion_analysis image = Ok emo /\
    resp = response_of emo.
Proof.
  split.
  - unfold facial_analysis. intros H.
    destruct (image_data_of data) as [payload|e] eqn:Hp; [|discriminate H].
    destruct (image_data_of_ok_inv data payload Hp) as (s & rest & Hget & Hrest & ->).
    cbn [bind] in H. unfold analyse_payload in H.
    destruct (b64decode (before_first "," rest)) as [bytes|e] eqn:Hb;
      [|discriminate H].
    cbn [bind] in H.
    destruct (image_open bytes) as [opened|e] eqn:Ho; [|discriminate H].
    cbn [bind] in H.
    destruct (load opened) as [image|e] eqn:Hl; [|discriminate H].
    cbn [bind] in H.
    destruct (basic_emotion_analysis image) as [emo|e] eqn:He; [|discriminate H].
    cbn [bind] in H. injection H as <-.
    exists s, rest, bytes, opened, image, emo.
    split; [exact Hget|]. split; [exact Hrest|]. split; [exact Hb|].
    split; [exact Ho|]. split; [exact Hl|]. split; [|split; [exact He | reflexivity]].
    pose proof (area_nonneg image).
    destruct (Z.eq_dec (area image) 0) as [E|E]; [|lia].
    rewrite (basic_emotion_analysis_empty image E) in He. discriminate He.
  - intros (s & rest & bytes & opened & image & emo
            & Hget & Hrest & Hb & Ho & Hl & _ & He & ->).
    unfold facial_analysis. rewrite (image_data_of_ok data s rest Hget Hrest).
    cbn [bind]. unfold analyse_payload. rewrite Hb. cbn [bind].
    rewrite Ho. cbn [bind]. rewrite Hl. cbn [bind]. rewrite He. reflexivity.
Qed.

(** X2: given the parsed body, the handler fails exactly with the fault of
    line 26, or the fault of the base64 decoder on the payload, or the
    fault of [Image.open] on the bytes, or the fault of loading the pixels
    of the opened image (line 11), or a division by zero when the loaded
    image has no pixel; scoring a loaded image raises nothing else. *)
Theorem X2_handler_failure
  (b64decode : string -> result (list byte))
  (image_open : list byte -> result OpenedImage) (data : json) (e : exn) :
  facial_analysis b64decode image_open data = Raise e <->
  image_data_of data = Raise e \/
  exists payload,
    image_data_of data = Ok payload /\
    (b64decode payload = Raise e \/
     exists bytes,
       b64decode payload = Ok bytes /\
       (image_open bytes = Raise e \/
        exists opened,
          image_open bytes = Ok opened /\
          (load opened = Raise e \/
           exists image,
             load opened = Ok image /\ area image = 0 /\
             e = ZeroDivisionError))).
Proof.
  split.
  - unfold facial_analysis. intros H.
    destruct (image_data_of data) as [payload|e0]; cbn [bind] in H.
    2:{ left. injection H as <-. reflexivity. }
    right. exists payload. split; [reflexivity|].
    unfold analyse_payload in H.
    destruct (b64decode payload) as [bytes|e1]; cbn [bind] in H.
    2:{ left. injection H as <-. reflexivity. }
    right. exists bytes. split; [reflexivity|].
    destruct (image_open bytes) as [opened|e2]; cbn [bind] in H.
    2:{ left. injection H as <-. reflexivity. }
    right. exists opened. split; [reflexivity|].
    destruct (load opened) as [image|e3]; cbn [bind] in H.
    2:{ left. injection H as <-. reflexivity. }
    right. exists image. split; [reflexivity|].
    pose proof (area_nonneg image) as H0.
    destruct (Z.eq_dec (area image) 0) as [E|E].
    + rewrite (basic_emotion_analysis_empty image E) in H. cbn [bind] in H.
      injection H as <-. split; [exact E | reflexivity].
    + destruct (basic_emotion_analysis_eq image ltac:(lia))
        as (avg & _ & _ & _ & _ & _ & _ & Hemo).
      rewrite Hemo in H. discriminate H.
  - unfold facial_analysis, analyse_payload.
    intros [H | (payload & Hp & [H | (bytes & Hb & [H | (opened & Ho &
              [H | (image & Hl & Ha & ->)])])])].
    + rewrite H. reflexivity.
    + rewrite Hp. cbn [bind]. rewrite H. reflexivity.
    + rewrite Hp. cbn [bind]. rewrite Hb. cbn [bind]. rewrite H. reflexivity.
    + rewrite Hp. cbn [bind]. rewrite Hb. cbn [bind]. rewrite Ho. cbn [bind].
      rewrite H. reflexivity.
    + rewrite Hp. cbn [bind]. rewrite Hb. cbn [bind]. rewrite Ho. cbn [bind].
      rewrite Hl. cbn [bind].
      rewrite (basic_emotion_analysis_empty image Ha). reflexivity.
Qed.

(** A file that opens and whose pixel data are cut short: the fault of
    line 11 escapes the handler, an [InvalidImage]. *)
Example truncated_file_fails :
  facial_analysis b64decode_any image_open_truncated (body_with (JStr "x,AAAA"))
  = Raise OSError /\
  classify OSError = InvalidImage.
Proof. split; reflexivity. Qed.

(** X3: every response has [engagement = 50], [attention = 50],
    [timestamp = 'now'], and emotions with exactly the six labels, in the
    order of the source, each value between 0.0 and 1.0. *)
Theorem X3_response_envelope
  (b64decode : string -> result (list byte))
  (image_open : list byte -> result OpenedImage) (data : json) (resp : Response) :
  facial_analysis b64decode image_open data = Ok resp ->
  engagement (facial resp) = 50 /\
  attention (facial resp) = 50 /\
  timestamp (facial resp) = "now"%string /\
  map fst (emotions (facial resp)) = labels /\
  Forall (fun kv => in_unit (snd kv) = true) (emotions (facial resp)).
Proof.
  unfold facial_analysis. intros H.
  destruct (image_data_of data) as [payload|e]; [|discriminate H].
  cbn [bind] in H. unfold analyse_payload in H.
  destruct (b64decode payload) as [bytes|e]; [|discriminate H]. cbn [bind] in H.
  destruct (image_open bytes) as [opened|e]; [|discriminate H]. cbn [bind] in H.
  destruct (load opened) as [image|e]; [|discriminate H]. cbn [bind] in H.
  pose proof (area_nonneg image) as H0.
  destruct (Z.eq_dec (area image) 0) as [E|E].
  { rewrite (basic_emotion_analysis_empty image E) in H. discriminate H. }
  destruct (basic_emotion_analysis_eq image ltac:(lia))
    as (avg & _ & _ & _ & _ & Hh & Hs & Hemo).
  rewrite Hemo in H. cbn [bind] in H. injection H as <-.
  cbn [facial engagement attention timestamp emotions round_scores map fst snd].
  repeat (split; [reflexivity|]).
  destruct (in_unit_round _ Hh) as [_ Hh2].
  destruct (in_unit_round _ Hs) as [_ Hs2].
  destruct constants_in_unit as (_ & _ & K3 & K4).
  repeat (apply Forall_cons; [cbn [snd]; assumption|]). apply Forall_nil.
Qed.

Lemma X3_witness :
  exists resp,
    facial_analysis b64decode_any image_open_2x2 (body_with (JStr "x,AAAA")) = Ok resp /\
    engagement (facial resp) = 50 /\
    map fst (emotions (facial resp)) = labels.
Proof.
  assert (H : exists resp,
            facial_analysis b64decode_any image_open_2x2
              (body_with (JStr "x,AAAA")) = Ok resp)
    by (eexists; vm_compute; reflexivity).
  destruct H as [resp H]. exists resp. split; [exact H|].
  destruct (X3_response_envelope b64decode_any image_open_2x2 _ resp H)
    as (H1 & _ & _ & H4 & _).
  split; [exact H1 | exact H4].
Defined.

(** X4: line 26 raises [TypeError] when the body is not an object,
    [KeyError] when it has no image field, [AttributeError] when the field
    is not a string, [IndexError] when the string has no comma, and
    otherwise returns the part of the string between its first comma and
    the next one. *)
Theorem X4_image_data_of_cases (data : json) :
  match data with
  | JObj items =>
      match lookup "image" items with
      | None => image_data_of data = Raise KeyError
      | Some (JStr s) =>
          match after_first "," s with
          | None => image_data_of data = Raise IndexError
          | Some rest => image_data_of data = Ok (before_first "," rest)
          end
      | Some _ => image_data_of data = Raise AttributeError
      end
  | _ => image_data_of data = Raise TypeError
  end.
Proof.
  destruct data as [| b | z | s | l | items]; try reflexivity.
  unfold image_data_of, getitem.
  destruct (lookup "image" items) as [v|]; [|reflexivity].
  destruct v as [| b | z | s | l | items']; try reflexivity.
  cbn [bind str_split]. unfold index.
  destruct (after_first "," s) as [rest|] eqn:E.
  - rewrite (split_second "," s rest E). reflexivity.
  - apply after_first_none in E. rewrite (split_no_second "," s E). reflexivity.
Qed.

(** X5: the payload that line 26 hands to the decoder never contains a
    comma. *)
Theorem X5_payload_has_no_comma (data : json) (payload : string) :
  image_data_of data = Ok payload -> contains "," payload = false.
Proof.
  intros H. destruct (image_data_of_ok_inv data payload H) as (s & rest & _ & _ & ->).
  apply contains_before_first.
Qed.

Lemma X5_witness :
  image_data_of (body_with (JStr "a,b,c")) = Ok "b"%string /\
  contains "," "b" = false.
Proof.
  assert (H : image_data_of (body_with (JStr "a,b,c")) = Ok "b"%string)
    by reflexivity.
  split; [exact H|].
  exact (X5_payload_has_no_comma (body_with (JStr "a,b,c")) "b" H).
Defined.

(** X6: what precedes the first comma of the image field is never looked
    at: two fields that differ only there get the same answer or the same
    fault. *)
Theorem X6_header_ignored
  (b64decode : string -> result (list byte))
  (image_open : list byte -> result OpenedImage) (pre1 pre2 rest : string) :
  contains "," pre1 = false -> contains "," pre2 = false ->
  facial_analysis b64decode image_open (body_with (JStr (pre1 ++ String "," rest)))
  = facial_analysis b64decode image_open (body_with (JStr (pre2 ++ String "," rest))).
Proof.
  intros H1 H2. unfold facial_analysis.
  rewrite (image_data_of_ok (body_with (JStr (pre1 ++ String "," rest)))
             _ rest eq_refl (after_first_app "," pre1 rest H1)).
  rewrite (image_data_of_ok (body_with (JStr (pre2 ++ String "," rest)))
             _ rest eq_refl (after_first_app "," pre2 rest H2)).
  reflexivity.
Qed.

Lemma X6_witness :
  facial_analysis b64decode_any image_open_2x2
    (body_with (JStr "data:image/png;base64,AAAA"))
  = facial_analysis b64decode_any image_open_2x2 (body_with (JStr "x,AAAA")).
Proof.
  apply (X6_header_ignored b64decode_any image_open_2x2
           "data:image/png;base64" "x" "AAAA"); reflexivity.
Defined.

(** X7: [split] and [join] are inverse to each other: joining the pieces
    of a string with the separator gives the string back, no piece
    contains the separator, there is at least one piece, and a non-empty
    list of separator-free pieces is what splitting its join returns. *)
Theorem X7_split_join (sep : ascii) (s : string) (l : list string) :
  join sep (split sep s) = s /\
  Forall (fun p => contains sep p = false) (split sep s) /\
  split sep s <> [] /\
  (l <> [] -> Forall (fun p => contains sep p = false) l ->
   split sep (join sep l) = l).
Proof.
  split; [apply join_split|]. split; [apply split_pieces|].
  split; [apply split_nonempty | apply split_join].
Qed.

(** ** The scores as a function of the mean luminance *)

(** X8: the scores depend on the mean luminance only: two images with at
    least one pixel each, whose sums of luminance are in the ratio of
    their areas, get the same scores, whatever their sizes and pixels. *)
Theorem X8_scores_depend_on_mean (image1 image2 : Image) :
  1 <= area image1 -> 1 <= area image2 ->
  sum (luminances image1) * area image2 = sum (luminances image2) * area image1 ->
  basic_emotion_analysis image1 = basic_emotion_analysis image2.
Proof.
  intros H1 H2 E. apply basic_emotion_analysis_by_mean.
  pose proof (luminances_sum_range image1). pose proof (luminances_sum_range image2).
  apply int_truediv_ext; lia.
Qed.

Lemma X8_witness :
  basic_emotion_analysis image_2x2_grey = basic_emotion_analysis image_3x1.
Proof.
  apply X8_scores_depend_on_mean; vm_compute; (discriminate || reflexivity).
Defined.

(** X9: the scores do not depend on where the pixels are: two images whose
    luminance values are a permutation of each other get the same result,
    scores or division by zero. *)
Theorem X9_pixel_order_irrelevant (image1 image2 : Image) :
  Permutation (luminances image1) (luminances image2) ->
  basic_emotion_analysis image1 = basic_emotion_analysis image2.
Proof.
  intros H. apply basic_emotion_analysis_by_mean.
  rewrite (sum_permutation _ _ H).
  rewrite <- (luminances_length image1), <- (luminances_length image2).
  rewrite (Permutation_length H). reflexivity.
Qed.

Lemma X9_witness :
  basic_emotion_analysis image_3x1 = basic_emotion_analysis image_1x3_shuffled.
Proof.
  apply X9_pixel_order_irrelevant.
  change (Permutation [16; 128; 240] (240 :: [16; 128])).
  apply Permutation_sym.
  exact (Permutation_cons_append [16; 128] 240).
Defined.

(** X10: a brighter image is happier and less sad: when the mean luminance
    of one image is at most that of another, its [happy] is at most the
    other's and its [sad] at least the other's, before and after the
    rounding to two decimals. *)
Theorem X10_monotone_in_brightness (image1 image2 : Image) :
  1 <= area image1 -> 1 <= area image2 ->
  sum (luminances image1) * area image2 <= sum (luminances image2) * area image1 ->
  exists emo1 emo2 h1 s1 h2 s2,
    basic_emotion_analysis image1 = Ok emo1 /\
    basic_emotion_analysis image2 = Ok emo2 /\
    dict_get "happy" emo1 = Some h1 /\ dict_get "sad" emo1 = Some s1 /\
    dict_get "happy" emo2 = Some h2 /\ dict_get "sad" emo2 = Some s2 /\
    fle h1 h2 = true /\ fle s2 s1 = true /\
    fle (py_round h1 2) (py_round h2 2) = true /\
    fle (py_round s2 2) (py_round s1 2) = true.
Proof.
  intros Ha1 Ha2 Hle.
  destruct (basic_emotion_analysis_eq image1 Ha1)
    as (avg1 & Havg1 & V1 & N1 & B1 & Hh1 & Hs1 & Hemo1).
  destruct (basic_emotion_analysis_eq image2 Ha2)
    as (avg2 & Havg2 & V2 & N2 & B2 & Hh2 & Hs2 & Hemo2).
  pose proof (luminances_sum_range image1). pose proof (luminances_sum_range image2).
  destruct (int_truediv_mono (sum (luminances image1)) (area image1)
              (sum (luminances image2)) (area image2) avg2
              ltac:(lia) ltac:(lia) ltac:(lia) ltac:(lia) Hle Havg2 N2)
    as (q1 & Hq1 & _ & _ & Hq).
  rewrite Havg1 in Hq1. injection Hq1 as <-.
  pose proof (fdiv_255_mono avg1 avg2 V1 N1 V2 N2 Hq B2) as Hh.
  pose proof (fsub_one_antitone _ _ Hh1 Hh2 Hh) as Hs.
  do 6 eexists.
  split; [exact Hemo1|]. split; [exact Hemo2|].
  split; [reflexivity|]. split; [reflexivity|].
  split; [reflexivity|]. split; [reflexivity|].
  split; [apply unit_fle; assumption|].
  split; [apply unit_fle; assumption|].
  split; apply unit_fle;
    try (apply py_round_unit; assumption); apply py_round_mono; assumption.
Qed.

Lemma X10_witness :
  exists h1 h2,
    (exists emo1, basic_emotion_analysis image_2x2_spot = Ok emo1 /\
                  dict_get "happy" emo1 = Some h1) /\
    (exists emo2, basic_emotion_analysis image_2x2_grey = Ok emo2 /\
                  dict_get "happy" emo2 = Some h2) /\
    fle h1 h2 = true.
Proof.
  destruct (X10_monotone_in_brightness image_2x2_spot image_2x2_grey)
    as (emo1 & emo2 & h1 & s1 & h2 & s2 & E1 & E2 & G1 & _ & G2 & _ & L & _);
    try (vm_compute; discriminate).
  exists h1, h2. split; [exists emo1; split; assumption|].
  split; [exists emo2; split; assumption | exact L].
Defined.

(** ** The values of the response *)





(** ** The extreme scores *)

Lemma luminances_range (image : Image) :
  Forall (fun x => 0 <= x <= 255) (luminances image).
Proof.
  unfold luminances. rewrite getdata_convert_L.
  apply Forall_forall. intros x Hx. apply in_map_iff in Hx.
  destruct Hx as (b & <- & _). apply chan_range.
Qed.

Lemma sum_extremes (l : list Z) :
  Forall (fun x => 0 <= x <= 255) l ->
  0 <= sum l <= 255 * Z.of_nat (List.length l) /\
  (sum l = 0 <-> Forall (fun x => x = 0) l) /\
  (sum l = 255 * Z.of_nat (List.length l) <-> Forall (fun x => x = 255) l).
Proof.
  induction 1 as [|x l Hx _ (IH0 & IH1 & IH2)].
  - cbn. repeat split; try lia; constructor.
  - rewrite sum_cons. cbn [List.length]. rewrite Nat2Z.inj_succ.
    split; [lia|]. split; split.
    + intros E. constructor; [lia | apply IH1; lia].
    + intros F. inversion F; subst. apply IH1 in H2. lia.
    + intros E. constructor; [lia | apply IH2; lia].
    + intros F. inversion F; subst. apply IH2 in H2. lia.
Qed.

(** The averages of an image that is not all white, or not all black, and
    has at most [2^45] pixels, are a float away from 255 and from 0. *)
Lemma int_truediv_below_255 (s n : Z) (avg : float) :
  1 <= n <= 2 ^ 45 -> 0 <= s <= 255 * n - 1 ->
  int_truediv s n = Ok avg ->
  ival avg <= ival (S754_finite false 8972014882652159 (-45)).
Proof.
  intros Hn Hs Havg.
  assert (H2 : int_truediv (255 * 2 ^ 45 - 1) (2 ^ 45)
               = Ok (S754_finite false 8972014882652159 (-45)))
    by (vm_compute; reflexivity).
  destruct (int_truediv_mono s n (255 * 2 ^ 45 - 1) (2 ^ 45) _
              ltac:(lia) ltac:(lia) ltac:(lia) ltac:(lia) ltac:(nia) H2 I)
    as (q & Hq & _ & _ & Hle).
  rewrite Havg in Hq. injection Hq as <-. exact Hle.
Qed.

Lemma int_truediv_above_0 (s n : Z) (avg : float) :
  1 <= n <= 2 ^ 45 -> 1 <= s ->
  int_truediv s n = Ok avg -> nonneg_finite avg ->
  ival (S754_finite false 4503599627370496 (-97)) <= ival avg.
Proof.
  intros Hn Hs Havg Navg.
  assert (H1 : int_truediv 1 (2 ^ 45)
               = Ok (S754_finite false 4503599627370496 (-97)))
    by (vm_compute; reflexivity).
  destruct (int_truediv_mono 1 (2 ^ 45) s n avg
              ltac:(lia) ltac:(lia) ltac:(lia) ltac:(lia) ltac:(nia) Havg Navg)
    as (q & Hq & _ & _ & Hle).
  rewrite H1 in Hq. injection Hq as <-. exact Hle.
Qed.

(** X13: for an image of at most [2^45] pixels the extreme scores belong
    to the uniform images only: [happy] is 1.0, and [sad] is 0.0, exactly
    when every pixel has luminance 255; [happy] is 0.0, and [sad] is 1.0,
    exactly when every pixel has luminance 0. *)
Theorem X13_extreme_scores (image : Image) :
  1 <= area image <= 2 ^ 45 ->
  exists emo h s,
    basic_emotion_analysis image = Ok emo /\
    dict_get "happy" emo = Some h /\ dict_get "sad" emo = Some s /\
    (h = lit_1_0 <-> Forall (fun x => x = 255) (luminances image)) /\
    (s = lit_0_0 <-> Forall (fun x => x = 255) (luminances image)) /\
    (h = lit_0_0 <-> Forall (fun x => x = 0) (luminances image)) /\
    (s = lit_1_0 <-> Forall (fun x => x = 0) (luminances image)).
Proof.
  intros Ha.
  destruct (basic_emotion_analysis_eq image ltac:(lia))
    as (avg & Havg & V & N & B & Hh & Hs & Hemo).
  destruct (sum_extremes _ (luminances_range image)) as (Hr & Hblack & Hwhite).
  rewrite luminances_length in Hr, Hwhite.
  do 3 eexists. split; [exact Hemo|]. split; [reflexivity|]. split; [reflexivity|].
  set (S := sum (luminances image)) in *.
  assert (Hcase : S = 255 * area image \/ S = 0 \/ 1 <= S <= 255 * area image - 1)
    by lia.
  destruct Hcase as [E | [E | E]].
  - (* all white *)
    assert (Eavg : avg = float_of_int 255).
    { pose proof (int_truediv_exact 255 (area image) (float_of_int 255)
                    ltac:(lia) valid_255
                    ltac:(rewrite float_of_int_255; exact I) ival_255) as H.
      rewrite E, H in Havg. injection Havg as <-. reflexivity. }
    rewrite Eavg.
    assert (W : Forall (fun x => x = 255) (luminances image)) by (apply Hwhite, E).
    assert (NB : ~ Forall (fun x => x = 0) (luminances image))
      by (intros F; apply Hblack in F; lia).
    repeat split; intros H; try exact W; try (vm_compute; reflexivity);
      try (exfalso; apply NB, H); vm_compute in H; discriminate H.
  - (* all black *)
    assert (Eavg : avg = S754_zero false).
    { pose proof (int_truediv_exact 0 (area image) (S754_zero false)
                    ltac:(lia) eq_refl I eq_refl) as H.
      rewrite E in Havg. rewrite Z.mul_0_l in H.
      rewrite H in Havg. injection Havg as <-. reflexivity. }
    rewrite Eavg.
    assert (Bk : Forall (fun x => x = 0) (luminances image)) by (apply Hblack, E).
    assert (NW : ~ Forall (fun x => x = 255) (luminances image))
      by (intros F; apply Hwhite in F; lia).
    repeat split; intros H; try exact Bk; try (vm_compute; reflexivity);
      try (exfalso; apply NW, H); vm_compute in H; discriminate H.
  - (* neither *)
    assert (NB : ~ Forall (fun x => x = 0) (luminances image))
      by (intros F; apply Hblack in F; lia).
    assert (NW : ~ Forall (fun x => x = 255) (luminances image))
      by (intros F; apply Hwhite in F; lia).
    set (hi := S754_finite false 8972014882652159 (-45)).
    set (lo := S754_finite false 4503599627370496 (-97)).
    pose proof (int_truediv_below_255 S (area image) avg Ha ltac:(lia) Havg) as Hhi.
    pose proof (int_truediv_above_0 S (area image) avg Ha ltac:(lia) Havg N) as Hlo.
    fold hi in Hhi. fold lo in Hlo.
    assert (Vhi : valid hi) by (vm_compute; reflexivity).
    assert (Vlo : valid lo) by (vm_compute; reflexivity).
    assert (Bhi : ival hi <= 255 * 2 ^ 1074) by (vm_compute; discriminate).
    pose proof (fdiv_255_mono avg hi V N Vhi I Hhi Bhi) as H1.
    pose proof (fdiv_255_mono lo avg Vlo I V N Hlo B) as H0.
    assert (Uhi : unit_float (fdiv hi (float_of_int 255)))
      by (apply fdiv_255_unit; assumption || exact I).
    assert (Ulo : unit_float (fdiv lo (float_of_int 255)))
      by (apply fdiv_255_unit; try assumption; try exact I; lia).
    pose proof (fsub_one_antitone _ _ Hh Uhi H1) as S1.
    pose proof (fsub_one_antitone _ _ Ulo Hh H0) as S0.
    assert (K1 : ival (fdiv hi (float_of_int 255)) < 2 ^ 1074)
      by (vm_compute; reflexivity).
    assert (K0 : 0 < ival (fdiv lo (float_of_int 255)))
      by (vm_compute; reflexivity).
    assert (K2 : 0 < ival (fsub (float_of_int 1) (fdiv hi (float_of_int 255))))
      by (vm_compute; reflexivity).
    assert (K3 : ival (fsub (float_of_int 1) (fdiv lo (float_of_int 255))) < 2 ^ 1074)
      by (vm_compute; reflexivity).
    set (h := fdiv avg (float_of_int 255)) in *.
    set (s := fsub (float_of_int 1) h) in *.
    assert (I1 : ival lit_1_0 = 2 ^ 1074) by apply ival_lit_1_0.
    assert (I0 : ival lit_0_0 = 0) by reflexivity.
    repeat split; intros H;
      try (exfalso; apply NB, H); try (exfalso; apply NW, H);
      exfalso; rewrite H in *; lia.
Qed.

Lemma X13_witness :
  exists emo h,
    basic_emotion_analysis image_2x2_spot = Ok emo /\
    dict_get "happy" emo = Some h /\ h <> lit_1_0.
Proof.
  destruct (X13_extreme_scores image_2x2_spot)
    as (emo & h & s & E & Gh & _ & W & _); [vm_compute; split; discriminate|].
  exists emo, h. split; [exact E|]. split; [exact Gh|].
  intros Hh. apply W in Hh. inversion Hh as [|x l Hx _]. discriminate Hx.
Defined.

